(** * CoverageIQ / Vantage: availability reconciliation and coverage ranking

    A shallow embedding of the parts of the repository that the
    specification talks about:

    - [SequenceMatcher] and [Matcher]: the name matching strategy
      ([_best_member_match], Slack sync feature plan, section 1f), with
      Python's [difflib.SequenceMatcher.ratio] that it calls;
    - [Scorer]: [getCombinedScore], [sortedSuggestions] and the suggestion
      rows of [SuggestionPanel.tsx], on IEEE binary64 numbers as JavaScript
      has them, and the skill score merge of [load_tasks];
    - [Reconcile]: the apply pass and the expiry sweep.  Their code
      ([crud.py]) is not part of the sources at hand, only the declarations
      of their result types and the pages that call them are, so they are
      modelled from the specification. *)

From Stdlib Require Import ZArith QArith PrimFloat FloatOps FloatAxioms.
From Stdlib Require Import SpecFloat.
From Stdlib Require Import Ascii String Sorted Lia.
From stdpp Require Import base option list strings gmap.

Set Warnings "-inexact-float".
#[local] Open Scope Z_scope.
#[local] Open Scope nat_scope.

(* ===================================================================== *)
(** * Python string methods used by the matcher *)
(* ===================================================================== *)

(** Strings are modelled as [string], one [ascii] per character: the model
    covers ASCII text.  On such text the methods below do what Python's
    [str.lstrip], [str.replace], [str.strip] and [str.lower] do. *)
Module PyStr.

(** [c in string.whitespace or c in '\x1c\x1d\x1e\x1f']: the ASCII
    characters for which [str.isspace] holds. *)
Definition isspace (c : ascii) : bool :=
  let n := nat_of_ascii c in
  ((9 <=? n) && (n <=? 13)) || ((28 <=? n) && (n <=? 32)).

(** [s.lstrip("@")]: every leading character of the set is removed. *)
Fixpoint lstrip_chars (p : ascii -> bool) (s : string) : string :=
  match s with
  | EmptyString => EmptyString
  | String c s' => if p c then lstrip_chars p s' else s
  end.

Fixpoint rstrip_chars (p : ascii -> bool) (s : string) : string :=
  match s with
  | EmptyString => EmptyString
  | String c s' =>
      match rstrip_chars p s' with
      | EmptyString => if p c then EmptyString else String c EmptyString
      | r => String c r
      end
  end.

Definition lstrip (chars : ascii) (s : string) : string :=
  lstrip_chars (fun c => Ascii.eqb c chars) s.

(** [s.strip()] *)
Definition strip (s : string) : string :=
  rstrip_chars isspace (lstrip_chars isspace s).

(** [s.replace(old, new)] for one-character [old] and [new]. *)
Fixpoint replace (old new : ascii) (s : string) : string :=
  match s with
  | EmptyString => EmptyString
  | String c s' =>
      String (if Ascii.eqb c old then new else c) (replace old new s')
  end.

Definition lower_char (c : ascii) : ascii :=
  let n := nat_of_ascii c in
  if (65 <=? n) && (n <=? 90) then ascii_of_nat (n + 32) else c.

(** [s.lower()], for ASCII text. *)
Fixpoint lower (s : string) : string :=
  match s with
  | EmptyString => EmptyString
  | String c s' => String (lower_char c) (lower s')
  end.

Fixpoint chars (s : string) : list ascii :=
  match s with
  | EmptyString => []
  | String c s' => c :: chars s'
  end.

(** [s.isascii()].  On such text the methods above are Python's; on
    other text [str.lower] and [str.strip] follow Unicode (capitals with
    accents, the final sigma, further white space), which a model with
    one byte to the character does not. *)
Definition isascii (s : string) : bool :=
  forallb (fun c => nat_of_ascii c <? 128) (chars s).

End PyStr.

(* ===================================================================== *)
(** * difflib.SequenceMatcher *)
(* ===================================================================== *)

(** [difflib.SequenceMatcher(None, a, b)] of CPython's standard library, as
    [_best_member_match] uses it: no junk predicate, and second sequences
    shorter than 200 elements, for which the automatic junk heuristic does
    nothing.  The float [2.0 * matches / length] is kept as the exact
    rational: for sequences of fewer than 2^26 elements two ratios compare,
    and a ratio compares with 0.75, the same way as their doubles do. *)
Module SequenceMatcher.
Section Seq.
Context {A : Type} `{EqDecision A}.

(** A matching block [(i, j, k)]: [a[i:i+k] == b[j:j+k]]. *)
Definition Match : Type := nat * nat * nat.

Definition size (m : Match) : nat := m.2.

(** One pass of the inner loop of [find_longest_match] for the element
    [x = a[i]]: [newj2len[j] = j2len.get(j-1, 0) + 1] where [b[j] == x];
    an index with no entry in the dictionary reads 0. *)
Fixpoint newj2len (x : A) (b : list A) (j2len : list nat) (diag : nat)
  : list nat :=
  match b, j2len with
  | y :: b', k :: j2len' =>
      (if decide (x = y) then S diag else 0) :: newj2len x b' j2len' k
  | _, _ => []
  end.

(** [if k > bestsize: besti, bestj, bestsize = i-k+1, j-k+1, k], for
    [j] ascending. *)
Fixpoint update_best (i j : nat) (row : list nat) (best : Match) : Match :=
  match row with
  | [] => best
  | k :: row' =>
      update_best i (S j) row'
        (if size best <? k then (i + 1 - k, j + 1 - k, k) else best)
  end.

(** The [for i in range(alo, ahi)] loop. *)
Fixpoint find_longest_loop (i : nat) (a b : list A) (j2len : list nat)
    (best : Match) : Match :=
  match a with
  | [] => best
  | x :: a' =>
      let row := newj2len x b j2len 0 in
      find_longest_loop (S i) a' b row (update_best i 0 row best)
  end.

(** [find_longest_match(alo, ahi, blo, bhi)] on the windows
    [a[alo:ahi]] and [b[blo:bhi]], with positions relative to the
    windows.  With no junk the two extension loops that follow the scan
    find nothing to extend. *)
Definition find_longest_match (a b : list A) : Match :=
  find_longest_loop 0 a b (replicate (length b) 0) (0, 0, 0).

(** [get_matching_blocks]: the longest block of the window, then the
    blocks to its left and to its right, here in the order in which the
    source has them after [matching_blocks.sort()].  Each block takes at
    least one element of [a], which bounds the recursion
    ([matching_blocks_fuel] below).  The source goes on to merge adjacent
    blocks and to append the sentinel [(la, lb, 0)]; neither changes the
    sum of the sizes, which is all that [ratio] reads. *)
Fixpoint matching_blocks (fuel : nat) (alo blo : nat) (a b : list A)
  : list Match :=
  match fuel with
  | O => []
  | S fuel' =>
      let '(i, j, k) := find_longest_match a b in
      if k =? 0 then []
      else
        (if (0 <? i) && (0 <? j)
         then matching_blocks fuel' alo blo (take i a) (take j b)
         else [])
        ++ (alo + i, blo + j, k)
        :: (if (i + k <? length a) && (j + k <? length b)
            then matching_blocks fuel' (alo + i + k) (blo + j + k)
                   (drop (i + k) a) (drop (j + k) b)
            else [])
  end.

Definition get_matching_blocks (a b : list A) : list Match :=
  matching_blocks (S (length a)) 0 0 a b.

(** [_calculate_ratio(matches, length)] *)
Definition _calculate_ratio (matches length : nat) : Q :=
  match length with
  | O => 1%Q
  | S _ => (Z.of_nat (2 * matches) # Pos.of_nat length)%Q
  end.

(** [ratio()], with
    [matches = sum(triple[-1] for triple in self.get_matching_blocks())]. *)
Definition ratio (a b : list A) : Q :=
  let matches := sum_list_with size (get_matching_blocks a b) in
  _calculate_ratio matches (length a + length b).

End Seq.
End SequenceMatcher.

Definition str_ratio (a b : string) : Q :=
  SequenceMatcher.ratio (PyStr.chars a) (PyStr.chars b).

(* ===================================================================== *)
(** * The name matching strategy *)
(* ===================================================================== *)

Definition Qltb (x y : Q) : bool := negb (Qle_bool y x).

Module Matcher.
Section Members.
(** [_best_member_match] reads nothing of a member but its [name]. *)
Context {TeamMember : Type} (name : TeamMember -> string).

(** [username.lstrip("@").replace(".", " ").strip().lower()] *)
Definition normalise (username : string) : string :=
  PyStr.lower
    (PyStr.strip (PyStr.replace "." " " (PyStr.lstrip "@" username))).

(** [difflib.SequenceMatcher(None, norm, m.name.lower()).ratio()] *)
Definition member_ratio (norm : string) (m : TeamMember) : Q :=
  str_ratio norm (PyStr.lower (name m)).

(** The [for m in members] loop.  [best_member] is a reference to an
    element of [members]: it is kept with its position. *)
Fixpoint best_loop (norm : string) (i : nat) (members : list TeamMember)
    (best_ratio : Q) (best_member : option (nat * TeamMember))
  : Q * option (nat * TeamMember) :=
  match members with
  | [] => (best_ratio, best_member)
  | m :: members' =>
      let ratio := member_ratio norm m in
      if Qltb best_ratio ratio
      then best_loop norm (S i) members' ratio (Some (i, m))
      else best_loop norm (S i) members' best_ratio best_member
  end.

Definition threshold : Q := 75 # 100.

(** [best_ratio, best_member = 0.0, None], the loop, and
    [return best_member if best_ratio >= 0.75 else None]. *)
Definition best_member_at (username : string) (members : list TeamMember)
  : option (nat * TeamMember) :=
  let norm := normalise username in
  let '(best_ratio, best_member) := best_loop norm 0 members 0%Q None in
  if Qle_bool threshold best_ratio then best_member else None.

Definition _best_member_match (username : string)
    (members : list TeamMember) : option TeamMember :=
  snd <$> best_member_at username members.

(** What the loop has established once the members [seen] are behind it:
    [best_ratio] bounds their ratios, and [best_member] is the first of
    them that reaches it. *)
Definition best_so_far (norm : string) (seen : list TeamMember)
    (best_ratio : Q) (best_member : option (nat * TeamMember)) : Prop :=
  (forall j m, seen !! j = Some m -> (member_ratio norm m <= best_ratio)%Q)
  /\ match best_member with
     | Some (k, mk) =>
         seen !! k = Some mk
         /\ (best_ratio == member_ratio norm mk)%Q
         /\ forall j m, (j < k)%nat -> seen !! j = Some m ->
              (member_ratio norm m < best_ratio)%Q
     | None => (best_ratio == 0)%Q
     end.

End Members.
End Matcher.

(* ===================================================================== *)
(** * The order of the doubles *)
(* ===================================================================== *)

Module Binary64.
#[local] Open Scope Z_scope.

(** The place of a double in the order of the doubles, as an integer:
    a finite double is a multiple of [2^-1074], and the infinities lie
    beyond every finite double. *)
Definition ord (x : spec_float) : Z :=
  match x with
  | S754_zero _ => 0
  | S754_infinity s => cond_Zopp s (2 ^ 2100)
  | S754_nan => 0
  | S754_finite s m e => cond_Zopp s (Z.pos m * 2 ^ (e + 1074))
  end.

Definition is_number (x : spec_float) : bool :=
  match x with S754_nan => false | _ => true end.

(** Above zero. *)
Definition is_positive (x : spec_float) : bool :=
  match x with
  | S754_finite false _ _ | S754_infinity false => true
  | _ => false
  end.

End Binary64.

(* ===================================================================== *)
(** * Coverage scoring: SuggestionPanel.tsx *)
(* ===================================================================== *)

#[local] Open Scope float_scope.

Module Scorer.

(** The records of [lib/types.ts], with the fields that the panel reads
    when it ranks and lists suggestions.  A JavaScript [number] is an
    IEEE binary64 value. *)
Record Suggestion := {
  memberId : string;
  skillMatchPct : float;
  workloadPct : float;
  contextReason : string
}.

Record DataSourceSignal := {
  calendarPct : float
}.

Record TeamMember := {
  id : string;
  name : string;
  dataSources : DataSourceSignal
}.

Record Task := {
  task_id : string;
  title : string;
  suggestions : list Suggestion
}.

(** Combined score: 70% calendar availability + 30% skill match *)
Definition getCombinedScore (skillMatchPct calendarPct : float) : float :=
  calendarPct * 0.7 + skillMatchPct * 0.3.

(** The same formula over the rationals, as the specification writes it. *)
Definition combinedScore_exact (skillMatchPct calendarFreePct : Q) : Q :=
  (calendarFreePct * (7 # 10) + skillMatchPct * (3 # 10))%Q.

(** [{ ...s, _combined }] *)
Record Scored := {
  sug : Suggestion;
  _combined : float
}.

(** [(members ?? []).find((m) => m.id === memberId)] *)
Definition find_member (members : option (list TeamMember))
    (memberId : string) : option TeamMember :=
  List.find (fun m => String.eqb (id m) memberId) (default [] members).

Definition score (members : option (list TeamMember)) (s : Suggestion)
  : Scored :=
  let member := find_member members (memberId s) in
  let calPct := default 0 (calendarPct ∘ dataSources <$> member) in
  {| sug := s; _combined := getCombinedScore (skillMatchPct s) calPct |}.

(** [(a, b) => b._combined - a._combined] *)
Definition comparefn (a b : Scored) : float := _combined b - _combined a.

(** [Array.prototype.sort(comparefn)] is stable (ECMAScript 2019) and
    moves [b] before [a] only where [comparefn(a, b) > 0]; a NaN result
    counts as +0.  For a comparator that is consistent on the elements
    every conforming engine returns what this insertion sort returns. *)
Section Sort.
Context {A : Type} (cmp : A -> A -> float).

Definition after (a b : A) : bool := 0 <? cmp a b.

Fixpoint insert (x : A) (l : list A) : list A :=
  match l with
  | [] => [x]
  | y :: l' => if after x y then y :: insert x l' else x :: l
  end.

Fixpoint sort (l : list A) : list A :=
  match l with
  | [] => []
  | x :: l' => insert x (sort l')
  end.

(** The comparator is consistent on the elements of [l]: it never asks
    for [a] after [b] and for [b] after [a], *)
Definition asymmetric_on (l : list A) : Prop :=
  forall a b, a ∈ l -> b ∈ l -> after a b = true -> after b a = false.

(** and where it asks neither for [a] after [b] nor for [b] after [c],
    it does not ask for [a] after [c]. *)
Definition neg_transitive_on (l : list A) : Prop :=
  forall a b c, a ∈ l -> b ∈ l -> c ∈ l ->
    after a b = false -> after b c = false -> after a c = false.

(** [a] may stay before [b]. *)
Definition not_after (a b : A) : Prop := after a b = false.
End Sort.

(** The rational that a finite double stands for. *)
Definition exact_value (x : float) : option Q :=
  match Prim2SF x with
  | S754_zero _ => Some 0%Q
  | S754_finite s m e =>
      let v := (inject_Z (Z.pos m) * Qpower 2 e)%Q in
      Some (if s then (- v)%Q else v)
  | _ => None
  end.

(** No score of [l] is NaN. *)
Definition numbers (l : list Scored) : bool :=
  forallb (fun e => negb (PrimFloat.is_nan (_combined e))) l.

(** [[...task.suggestions].map(...).sort(...)] *)
Definition sortedSuggestions (task : Task)
    (members : option (list TeamMember)) : list Scored :=
  sort comparefn (score members <$> suggestions task).

(** The props of one [<SuggestionRow/>]. *)
Record SuggestionRow := {
  row_suggestion : Scored;
  row_task : Task;
  row_member : TeamMember;
  rank : nat
}.

(** [sortedSuggestions.map((s, i) => { ...; if (!member) return null; ... })] *)
Definition row (task : Task) (members : option (list TeamMember))
    (i : nat) (s : Scored) : option SuggestionRow :=
  match find_member members (memberId (sug s)) with
  | None => None
  | Some member =>
      Some {| row_suggestion := s; row_task := task;
              row_member := member; rank := i |}
  end.

Definition suggestionRows (task : Task)
    (members : option (list TeamMember)) : list (option SuggestionRow) :=
  imap (row task members) (sortedSuggestions task members).

(** React renders nothing for a [null] child. *)
Definition renderedRows (task : Task)
    (members : option (list TeamMember)) : list SuggestionRow :=
  omap (fun r => r) (suggestionRows task members).

End Scorer.

(* ===================================================================== *)
(** * The skill score merge: load_tasks of data_loader.py *)
(* ===================================================================== *)

Module DataLoader.
Import Scorer.

(** One entry of [skill_scores.json], as the scoring script writes it:
    both fields are present. *)
Record ScoreEntry := {
  scored_skillMatchPct : float;
  scored_contextReason : string
}.

(** The body of [for s in task["suggestions"]]: [if scored:] replaces
    the two fields, and the suggestion is left as parsed otherwise. *)
Definition merge_suggestion (task_scores : gmap string ScoreEntry)
    (s : Suggestion) : Suggestion :=
  match task_scores !! memberId s with
  | Some scored =>
      {| memberId := memberId s;
         skillMatchPct := scored_skillMatchPct scored;
         workloadPct := workloadPct s;
         contextReason := scored_contextReason scored |}
  | None => s
  end.

(** The body of [for task in tasks], with
    [task_scores = scores.get(task["id"], {})]. *)
Definition merge_task (scores : gmap string (gmap string ScoreEntry))
    (task : Task) : Task :=
  let task_scores := default ∅ (scores !! task_id task) in
  {| task_id := task_id task;
     title := title task;
     suggestions := merge_suggestion task_scores <$> suggestions task |}.

(** [load_tasks], given what [parse_mock_data] and [json.loads] return. *)
Definition load_tasks (tasks : list Task)
    (scores : gmap string (gmap string ScoreEntry)) : list Task :=
  merge_task scores <$> tasks.

End DataLoader.

(* ===================================================================== *)
(** * Reconciliation: the apply pass and the expiry sweep *)
(* ===================================================================== *)

#[local] Open Scope Z_scope.

Module Reconcile.

(** Modelled from the spec: the values of [availability] (section 3). *)
Inductive Availability := available | partial | ooo.

(** Modelled from the spec: who last set the availability (section 3). *)
Inductive Source := default | slack | manual.

(** Timestamps are integers (an instant on one clock). *)
Definition Timestamp : Type := Z.

(** Modelled from the spec: the Member record of section 3; the backend
    model ([models.py]) is not in the sources at hand.  [slackOooStart]
    is the field of that name of [TeamMember] in [lib/types.ts], the
    "Slack-sourced OOO start (may be future)". *)
Record Member := {
  id : string;
  name : string;
  skills : list string;
  availability : Availability;
  isOutOfOffice : bool;
  source : Source;
  manualOverrideActive : bool;
  slackOooStart : option Timestamp;
  slackOooUntil : option Timestamp;
  calendarFreePct : float
}.

(** Modelled from the spec: the input of reconciliation (section 3). *)
Record StructuredAnnouncement := {
  personReference : string;
  startDate : option Timestamp;
  endDate : option Timestamp;
  reason : option string;
  coverageReference : option string
}.

(** Modelled from the spec: the record of one reconciliation decision
    (section 3); [lib/types.ts] declares the same fields, with
    [personUsername] for [matchedReference]. *)
Record MemberOOOChange := {
  memberId : string;
  memberName : string;
  matchedReference : string;
  change_startDate : option Timestamp;
  change_endDate : option Timestamp;
  change_reason : option string;
  coverageBy : option string;
  pending : bool
}.

(** Modelled from the spec: the aggregate of section 4.3, the superset
    of the two result shapes of the sources. *)
Record SyncResult := {
  scanned : nat;
  detected : nat;
  applied : nat;
  skipped : nat;
  changes : list MemberOOOChange
}.

(** Modelled from the spec: the temporal state of section 4.2. *)
Inductive TemporalState := active | future.

Definition is_before (d : option Timestamp) (now : Timestamp) : bool :=
  match d with
  | Some t => t <? now
  | None => false
  end.

(** Modelled from the spec: the announcement normalizer of section 4.2,
    which has no code in the sources at hand.  [None] is the outcome
    Skip.  An absent date is before, at or after nothing; an absent
    [endDate] is open-ended. *)
Definition normalize (a : StructuredAnnouncement) (now : Timestamp)
  : option TemporalState :=
  if is_before (startDate a) now && is_before (endDate a) now then None
  else
    match startDate a with
    | Some s =>
        if (s <=? now)
           && match endDate a with Some e => now <=? e | None => true end
        then Some active
        else if now <? s then Some future
        else None
    | None => None
    end.

(** Modelled from the spec: step 4 of the apply pass,
    [availability = ooo], [isOutOfOffice = true], [source = slack],
    [slackOooUntil = endDate]; the start of the window is kept in
    [slackOooStart]. *)
Definition mark_ooo (m : Member) (start until : option Timestamp)
  : Member :=
  {| id := id m; name := name m; skills := skills m;
     availability := ooo; isOutOfOffice := true; source := slack;
     manualOverrideActive := manualOverrideActive m;
     slackOooStart := start;
     slackOooUntil := until;
     calendarFreePct := calendarFreePct m |}.

(** Modelled from the spec: what the apply pass does with an
    announcement whose window has not begun.  The window is stored and
    the availability is left as it is: the member is not out of office
    "until [now >= startDate]" (section 8, future activation); the
    Settings page says the same, "Future OOOs are stored and activate
    automatically", and the feature plan sets the status only "if
    matched and [start_date <= today <= end_date]". *)
Definition store_pending (m : Member) (start until : option Timestamp)
  : Member :=
  {| id := id m; name := name m; skills := skills m;
     availability := availability m; isOutOfOffice := isOutOfOffice m;
     source := source m;
     manualOverrideActive := manualOverrideActive m;
     slackOooStart := start;
     slackOooUntil := until;
     calendarFreePct := calendarFreePct m |}.

(** Modelled from the spec: the reset of the expiry sweep,
    [availability = available], [isOutOfOffice = false],
    [slackOooUntil = null]. *)
Definition restore (m : Member) : Member :=
  {| id := id m; name := name m; skills := skills m;
     availability := available; isOutOfOffice := false;
     source := source m;
     manualOverrideActive := manualOverrideActive m;
     slackOooStart := slackOooStart m;
     slackOooUntil := None;
     calendarFreePct := calendarFreePct m |}.

(** Modelled from the spec: the change record that step 4 emits, with
    [pending = (temporal state == future)]; [reason] and
    [coverageReference] pass through unchanged. *)
Definition change_record (m : Member) (a : StructuredAnnouncement)
    (state : TemporalState) : MemberOOOChange :=
  {| memberId := id m; memberName := name m;
     matchedReference := personReference a;
     change_startDate := startDate a; change_endDate := endDate a;
     change_reason := reason a; coverageBy := coverageReference a;
     pending := match state with future => true | active => false end |}.

Definition count_skipped (r : SyncResult) : SyncResult :=
  {| scanned := scanned r; detected := detected r; applied := applied r;
     skipped := S (skipped r); changes := changes r |}.

Definition count_detected (r : SyncResult) : SyncResult :=
  {| scanned := scanned r; detected := S (detected r);
     applied := applied r; skipped := skipped r; changes := changes r |}.

Definition count_applied (c : MemberOOOChange) (r : SyncResult)
  : SyncResult :=
  {| scanned := scanned r; detected := detected r;
     applied := S (applied r); skipped := skipped r;
     changes := changes r ++ [c] |}.

(** The member table and the result under construction. *)
Definition PassState : Type := list Member * SyncResult.

(** Modelled from the spec: steps 1 to 5 of the apply pass of section
    4.3 for one announcement; the code ([apply_timeoff_entries] of
    [crud.py]) is not in the sources at hand.  The identity matcher is
    the one of the sources, [_best_member_match].  Where the sentences
    of the spec disagree with one another they are read with the
    declarations of the sources.  An announcement is a message that was
    classified as time-off, which is what [detected] counts in
    [TimeOffSyncResult]; its [skipped] is "detected but couldn't match
    or already passed", so that [skipped = detected - applied] as
    section 4.3 has it.  An announcement for the future is stored and
    counts as applied, with [pending]. *)
Definition apply_one (now : Timestamp) (st : PassState)
    (a : StructuredAnnouncement) : PassState :=
  let '(roster, r) := st in
  let r := count_detected r in
  match normalize a now with
  | None => (roster, count_skipped r)
  | Some state =>
      match Matcher.best_member_at name (personReference a) roster with
      | None => (roster, count_skipped r)
      | Some (i, m) =>
          if manualOverrideActive m then (roster, count_skipped r)
          else
            let m' :=
              match state with
              | active => mark_ooo m (startDate a) (endDate a)
              | future => store_pending m (startDate a) (endDate a)
              end in
            (<[i := m']> roster,
             count_applied (change_record m a state) r)
      end
  end.

(** Modelled from the spec: [applyAnnouncements(announcements, roster,
    now) -> SyncResult] of section 4.3, with the member table it leaves. *)
Definition applyAnnouncements (announcements : list StructuredAnnouncement)
    (roster : list Member) (now : Timestamp) : PassState :=
  foldl (apply_one now)
    (roster,
     {| scanned := length announcements; detected := 0%nat;
        applied := 0%nat; skipped := 0%nat; changes := [] |})
    announcements.

(** Modelled from the spec: the members that the sweep resets,
    [slackOooUntil] non-null and before [now], unless
    [manualOverrideActive]. *)
Definition expired (m : Member) (now : Timestamp) : bool :=
  is_before (slackOooUntil m) now && negb (manualOverrideActive m).

(** Modelled from the spec: [restoreExpired(roster, now) ->
    list[MemberId]] of section 4.3 ([restore_expired_slack_ooo] of
    [crud.py], not in the sources at hand), with the member table it
    leaves. *)
Definition restoreExpired (roster : list Member) (now : Timestamp)
  : list Member * list string :=
  ((fun m => if expired m now then restore m else m) <$> roster,
   id <$> filter (fun m => expired m now = true) roster).

(** Modelled from the spec: the sweep runs before every apply pass
    (section 4.3). *)
Definition syncNow (announcements : list StructuredAnnouncement)
    (roster : list Member) (now : Timestamp) : PassState :=
  applyAnnouncements announcements (restoreExpired roster now).1 now.

End Reconcile.

#[local] Open Scope nat_scope.

(* ===================================================================== *)
(** * Invariants of the sequence matcher *)
(* ===================================================================== *)

Module SequenceMatcherInv.
Section Seq.
Context {A : Type} `{EqDecision A}.
Import SequenceMatcher.

(** [k] is the length of a common run of [a] and [b] that ends at
    [a[i]] and [b[j]]. *)
Definition run_at (a b : list A) (i j k : nat) : Prop :=
  k <= S i /\ k <= S j
  /\ take k (drop (S i - k) a) = take k (drop (S j - k) b).

(** The block lies within both sequences and is the same run in both. *)
Definition valid_block (a b : list A) (m : Match) : Prop :=
  m.1.1 + size m <= length a /\ m.1.2 + size m <= length b
  /\ take (size m) (drop m.1.1 a) = take (size m) (drop m.1.2 b).

(** The dictionary [j2len] after [i] elements of [a]: every entry is the
    length of a run that ends at the element before. *)
Definition row_ok (a b : list A) (i : nat) (row : list nat) : Prop :=
  length row = length b
  /\ forall j k, row !! j = Some k ->
       k = 0 \/ (exists i', i = S i' /\ run_at a b i' j k).

(** The length of the longest run common to [a] and [b] that ends at
    [a[i]] and [b[j]]. *)
Fixpoint suffix_len (a b : list A) (i j : nat) : nat :=
  match a !! i, b !! j with
  | Some x, Some y =>
      if decide (x = y)
      then S (match i, j with
              | S i', S j' => suffix_len a b i' j'
              | _, _ => 0
              end)
      else 0
  | _, _ => 0
  end.

(** The dictionary [j2len] after [i] elements of [a], entry by entry. *)
Definition exact_row (a b : list A) (i : nat) (row : list nat) : Prop :=
  length row = length b
  /\ forall j, j < length b ->
       row !! j = Some (match i with
                        | O => 0
                        | S i' => suffix_len a b i' j
                        end).

End Seq.
End SequenceMatcherInv.

(* ===================================================================== *)
(** * What section 4.1 asks of the identity matcher *)
(* ===================================================================== *)

(** The normalisation and the similarity ratio as relations between the
    input and the result, written without the functions of [PyStr] and
    [SequenceMatcher], to compare these with. *)
Module MatchSpec.
Section Seq.
Context {A : Type}.

(** [a[i:i+k] == b[j:j+k]], element by element. *)
Definition common_block (a b : list A) (i j k : nat) : Prop :=
  forall d, d < k ->
    exists x, a !! (i + d) = Some x /\ b !! (j + d) = Some x.

(** A longest block common to [a] and [b]; of the longest blocks the
    one that starts earliest in [a], and of those the one that starts
    earliest in [b]. *)
Definition longest_block (a b : list A) (i j k : nat) : Prop :=
  common_block a b i j k
  /\ forall i' j' k', 0 < k' -> common_block a b i' j' k' ->
       k' < k \/ (k' = k /\ (i < i' \/ (i = i' /\ j <= j'))).

(** The number of matching elements of the "longest matching blocks"
    metric: the size of the longest common block, and the same again
    for what lies to the left of the block in both sequences, and for
    what lies to its right. *)
Inductive matching : list A -> list A -> nat -> Prop :=
  | matching_none a b :
      (forall x, x ∈ a -> x ∉ b) -> matching a b 0
  | matching_block a b i j k left right :
      0 < k -> longest_block a b i j k ->
      matching (take i a) (take j b) left ->
      matching (drop (i + k) a) (drop (j + k) b) right ->
      matching a b (left + k + right).

(** The ratio [2 * M / T] of the matching elements [M] to the elements
    [T] of both sequences, 1 for two empty sequences. *)
Definition similarity (a b : list A) (q : Q) : Prop :=
  exists M,
    matching a b M
    /\ match (length a + length b)%nat with
       | O => (q == 1)%Q
       | S n => (q == Z.of_nat (2 * M) # Pos.of_nat (S n))%Q
       end.

End Seq.

(** [c'] is [c] in lower case: the letters [A] to [Z] move up by 32. *)
Definition lowered_char (c c' : ascii) : Prop :=
  if (65 <=? nat_of_ascii c) && (nat_of_ascii c <=? 90)
  then nat_of_ascii c' = nat_of_ascii c + 32
  else c' = c.

Definition lowered (s s' : list ascii) : Prop := Forall2 lowered_char s s'.

(** The ASCII characters that [strip()] removes: tab, line feed,
    vertical tab, form feed, carriage return, the four separators and
    the space. *)
Definition whitespace (c : ascii) : Prop :=
  nat_of_ascii c ∈ [9; 10; 11; 12; 13; 28; 29; 30; 31; 32].

Definition dot_to_space (c d : ascii) : Prop :=
  d = if Ascii.eqb c "." then " "%char else c.

(** [norm] is [reference] without its leading [@] characters, with a
    space for every dot, without the white space at either end, in
    lower case. *)
Definition normalised (reference norm : list ascii) : Prop :=
  exists ats rest spaced before core after,
    reference = ats ++ rest
    /\ Forall (fun c => c = "@"%char) ats
    /\ head rest <> Some "@"%char
    /\ Forall2 dot_to_space rest spaced
    /\ spaced = before ++ core ++ after
    /\ Forall whitespace before /\ Forall whitespace after
    /\ (forall c, head core = Some c -> ~ whitespace c)
    /\ (forall c, last core = Some c -> ~ whitespace c)
    /\ lowered core norm.

End MatchSpec.

(** What the scan of [find_longest_match] has established when it
    stands at [a[i]], [b[j]]. *)
Module SequenceMatcherScan.
Section Seq.
Context {A : Type}.
Import MatchSpec.

(** The block [(i', j', k')] ends before the scan reaches [(i, j)]. *)
Definition ends_before (i' j' k' i j : nat) : Prop :=
  i' + k' - 1 < i \/ (i' + k' - 1 = i /\ j' + k' - 1 < j).

(** [best] is the first of the longest blocks that end before
    [(i, j)]. *)
Definition best_upto (a b : list A) (i j : nat)
    (best : SequenceMatcher.Match) : Prop :=
  common_block a b best.1.1 best.1.2 best.2
  /\ (best.2 = 0 \/ ends_before best.1.1 best.1.2 best.2 i j)
  /\ forall i' j' k', 0 < k' -> common_block a b i' j' k' ->
       ends_before i' j' k' i j ->
       k' < best.2
       \/ (k' = best.2
           /\ (best.1.1 < i' \/ (best.1.1 = i' /\ best.1.2 <= j'))).

End Seq.
End SequenceMatcherScan.

(* ===================================================================== *)
(** * JavaScript string methods used by the pages *)
(* ===================================================================== *)

(** As for [PyStr], the model covers ASCII text. *)
Module JsStr.

(** [s.split(sep)] for a one-character separator: an empty string gives
    one empty piece, and two separators in a row give an empty piece
    between them. *)
Fixpoint split (sep : ascii) (s : string) : list string :=
  match s with
  | EmptyString => [EmptyString]
  | String c s' =>
      if Ascii.eqb c sep then EmptyString :: split sep s'
      else match split sep s' with
           | w :: ws => String c w :: ws
           | [] => [String c EmptyString]
           end
  end.

(** [pieces.join('')], where an [undefined] piece counts as empty. *)
Fixpoint join (pieces : list (option ascii)) : string :=
  match pieces with
  | [] => EmptyString
  | Some c :: pieces' => String c (join pieces')
  | None :: pieces' => join pieces'
  end.

(** [s[0]]: [undefined] for the empty string. *)
Definition first (s : string) : option ascii :=
  match s with
  | EmptyString => None
  | String c _ => Some c
  end.

Definition upper_char (c : ascii) : ascii :=
  let n := nat_of_ascii c in
  if (97 <=? n) && (n <=? 122) then ascii_of_nat (n - 32) else c.

(** [s.toUpperCase()] *)
Fixpoint toUpperCase (s : string) : string :=
  match s with
  | EmptyString => EmptyString
  | String c s' => String (upper_char c) (toUpperCase s')
  end.

(** [s.slice(0, n)] *)
Fixpoint slice0 (n : nat) (s : string) : string :=
  match n, s with
  | S n', String c s' => String c (slice0 n' s')
  | _, _ => EmptyString
  end.

(** [s.endsWith(suffix)] *)
Definition endsWith (s suffix : string) : bool :=
  (String.length suffix <=? String.length s)
  && String.eqb
       (String.substring (String.length s - String.length suffix)
          (String.length suffix) s)
       suffix.

(** [\d] *)
Definition is_digit (c : ascii) : bool :=
  let n := nat_of_ascii c in (48 <=? n) && (n <=? 57).

(** [s.replace(/\D/g, '')] *)
Fixpoint remove_non_digits (s : string) : string :=
  match s with
  | EmptyString => EmptyString
  | String c s' =>
      if is_digit c then String c (remove_non_digits s')
      else remove_non_digits s'
  end.

(** The truth value of an optional string: [undefined] and [''] are
    falsy. *)
Definition truthy (s : option string) : bool :=
  match s with
  | Some (String _ _) => true
  | _ => false
  end.

End JsStr.

(* ===================================================================== *)
(** * The suggestion panel: SuggestionPanel.tsx *)
(* ===================================================================== *)

Module Panel.
Import Scorer.

(** [name.split(' ').map((n) => n[0]).join('').toUpperCase().slice(0, 2)] *)
Definition getInitials (name : string) : string :=
  JsStr.slice0 2
    (JsStr.toUpperCase (JsStr.join (JsStr.first <$> JsStr.split " " name))).

Inductive StatusColour := green | yellow | red.

(** [calPct > 70 ? 'text-status-green' : calPct > 40 ?
    'text-status-yellow' : 'text-status-red'] *)
Definition calTextClass (calPct : float) : StatusColour :=
  if (70 <? calPct)%float then green
  else if (40 <? calPct)%float then yellow else red.

(** [calPct > 70 ? '#818cf8' : calPct > 40 ? '#f5c842' : '#ff4d6a'] *)
Definition calBarColor (calPct : float) : string :=
  if (70 <? calPct)%float then "#818cf8"
  else if (40 <? calPct)%float then "#f5c842" else "#ff4d6a".

(** [TaskStatus] of [lib/types.ts]. *)
Inductive TaskStatus := at_risk | unassigned | covered.

(** A task as the panel reads it: the fields of [Scorer.Task] with its
    [status] and its [assigneeId] ([string | null]). *)
Record PanelTask := {
  task : Task;
  status : TaskStatus;
  assigneeId : option string
}.

(** The part of the store that the panel reads. *)
Record Store := {
  selectedTaskId : option string;
  taskStatusOverrides : gmap string TaskStatus;
  pipelineRunning : gmap string bool
}.

(** What is in the "Suggestions list" part of the panel. *)
Inductive SuggestionArea :=
  | Rows (rows : list SuggestionRow)
  | ScoringCandidates.

(** The parts of the rendered panel that depend on the state. *)
Record PanelView := {
  covered_badge : bool;
  unassign_button : bool;
  running_banner : bool;
  suggestion_area : option SuggestionArea;
  covered_note : bool
}.

Inductive Rendered :=
  | SelectATask
  | Spinner
  | Shown (view : PanelView).

(** [(tasks ?? []).find((t) => t.id === selectedTaskId)] *)
Definition find_task (tasks : option (list PanelTask))
    (selected : option string) : option PanelTask :=
  List.find (fun t => bool_decide (Some (task_id (task t)) = selected))
    (default [] tasks).

(** The body of [SuggestionPanel], from the two early returns to the
    returned tree. *)
Definition SuggestionPanel (store : Store)
    (tasks : option (list PanelTask))
    (members : option (list TeamMember)) : Rendered :=
  if negb (JsStr.truthy (selectedTaskId store)) then SelectATask
  else
    match find_task tasks (selectedTaskId store),
          selectedTaskId store with
    | Some t, Some selected =>
        let currentStatus :=
          default (status t) (taskStatusOverrides store !! selected) in
        let isCovered :=
          match currentStatus with covered => true | _ => false end in
        let isRunning := default false (pipelineRunning store !! selected) in
        let sorted := sortedSuggestions (task t) members in
        Shown
          {| covered_badge := isCovered;
             unassign_button := JsStr.truthy (assigneeId t);
             running_banner := isRunning;
             suggestion_area :=
               if negb isCovered && negb isRunning
               then Some (if 0 <? length sorted
                          then Rows (renderedRows (task t) members)
                          else ScoringCandidates)
               else None;
             covered_note := isCovered |}
    | _, _ => Spinner
    end.

End Panel.

(* ===================================================================== *)
(** * The settings page: calendar upload *)
(* ===================================================================== *)

Module Settings.

(** A browser [File], as far as the page reads it. *)
Record File := {
  file_name : string;
  file_content : string
}.

(** The [files] and [results] state of [IcsUploadSection]; the results
    are kept as the list of processed member ids. *)
Record UploadState := {
  files : list File;
  results : option (list string)
}.

Definition valid_name (f : File) : bool :=
  JsStr.endsWith (file_name f) ".ics" || JsStr.endsWith (file_name f) ".zip".

(** [addFiles(incoming)]: [incoming] is a [FileList] or [null]. *)
Definition addFiles (incoming : option (list File)) (st : UploadState)
  : UploadState :=
  match incoming with
  | None => st
  | Some incoming =>
      let valid := List.filter valid_name incoming in
      let prev := files st in
      let names : gset string := list_to_set (file_name <$> prev) in
      {| files :=
           prev ++ List.filter
                     (fun f => negb (bool_decide (file_name f ∈ names)))
                     valid;
         results := None |}
  end.

(** [removeFile(name)] *)
Definition removeFile (name : string) (st : UploadState) : UploadState :=
  {| files :=
       List.filter (fun f => negb (String.eqb (file_name f) name))
         (files st);
     results := None |}.

End Settings.

(* ===================================================================== *)
(** * The sign-in page *)
(* ===================================================================== *)

Module SignIn.

(** [onChange] of the verification code input:
    [e.target.value.replace(/\D/g, '').slice(0, 6)] *)
Definition otp_input (value : string) : string :=
  JsStr.slice0 6 (JsStr.remove_non_digits value).

(** [disabled={loading || otp.length < 6}] of the verify button. *)
Definition verify_disabled (loading : bool) (otp : string) : bool :=
  loading || (String.length otp <? 6).

(** One entry of [errors] of a Clerk error. *)
Record ClerkError := {
  longMessage : option string;
  message : option string
}.

(** [errors?.[0]?.longMessage || errors?.[0]?.message || fallback] *)
Definition error_text (errors : option (list ClerkError))
    (fallback : string) : string :=
  let first := errors ≫= head in
  let long := first ≫= longMessage in
  let short := first ≫= message in
  if JsStr.truthy long then default fallback long
  else if JsStr.truthy short then default fallback short
  else fallback.

Inductive Step := credentials | otp.

(** The state of [SignInPage] that the handlers write. *)
Record FormState := {
  step : Step;
  error : string;
  loading : bool
}.

(** What the calls to Clerk did during [handleCredentials]: each [await]
    returns or throws.  What is thrown is an object, and [errors] is its
    field of that name, [None] where it has none. *)
Inductive CreateOutcome :=
  | CreateThrew (errors : option (list ClerkError))
  | Complete (setActiveThrew : option (option (list ClerkError)))
  | NeedsSecondFactor (emailCodeFactor : bool)
      (prepareThrew : option (option (list ClerkError)))
  | OtherStatus.

Definition set_error (e : string) (st : FormState) : FormState :=
  {| step := step st; error := e; loading := false |}.

(** [handleCredentials]: the state when the handler is done ([finally]
    has run), and whether it navigated to ['/']. *)
Definition handleCredentials (isLoaded : bool) (outcome : CreateOutcome)
    (st : FormState) : FormState * bool :=
  if negb isLoaded || loading st then (st, false)
  else
    let fallback := "Invalid credentials. Please try again." in
    match outcome with
    | CreateThrew errors => (set_error (error_text errors fallback) st, false)
    | Complete None => (set_error "" st, true)
    | Complete (Some errors) =>
        (set_error (error_text errors fallback) st, false)
    | NeedsSecondFactor true (Some errors) =>
        (set_error (error_text errors fallback) st, false)
    | NeedsSecondFactor _ _ =>
        ({| step := otp; error := ""; loading := false |}, false)
    | OtherStatus =>
        (set_error "Sign-in could not be completed. Please try again." st,
         false)
    end.

End SignIn.

#[local] Open Scope Z_scope.

(* ===================================================================== *)
(** * Sample data of the specification's scenarios *)
(* ===================================================================== *)

Module Sample.

Definition maya_patel : Reconcile.Member :=
  {| Reconcile.id := "mem-2"; Reconcile.name := "Maya Patel";
     Reconcile.skills := [];
     Reconcile.availability := Reconcile.available;
     Reconcile.isOutOfOffice := false;
     Reconcile.source := Reconcile.default;
     Reconcile.manualOverrideActive := false;
     Reconcile.slackOooStart := None;
     Reconcile.slackOooUntil := None;
     Reconcile.calendarFreePct := 55%float |}.

(** Maya Patel with a manual override in force. *)
Definition maya_overridden : Reconcile.Member :=
  {| Reconcile.id := "mem-2"; Reconcile.name := "Maya Patel";
     Reconcile.skills := [];
     Reconcile.availability := Reconcile.available;
     Reconcile.isOutOfOffice := false;
     Reconcile.source := Reconcile.manual;
     Reconcile.manualOverrideActive := true;
     Reconcile.slackOooStart := None;
     Reconcile.slackOooUntil := Some 5%Z;
     Reconcile.calendarFreePct := 55%float |}.



(** An absence that is under way at [now = 10]. *)
Definition away_now : Reconcile.StructuredAnnouncement :=
  {| Reconcile.personReference := "@maya.patel";
     Reconcile.startDate := Some 1%Z;
     Reconcile.endDate := Some 20%Z;
     Reconcile.reason := Some "conference";
     Reconcile.coverageReference := Some "alex" |}.

(** An announcement that lies wholly before [now = 10]. *)
Definition stale : Reconcile.StructuredAnnouncement :=
  {| Reconcile.personReference := "@maya.patel";
     Reconcile.startDate := Some 1%Z;
     Reconcile.endDate := Some 2%Z;
     Reconcile.reason := None;
     Reconcile.coverageReference := None |}.

Definition jordan_lee : Scorer.TeamMember :=
  {| Scorer.id := "mem-1"; Scorer.name := "Jordan Lee";
     Scorer.dataSources := {| Scorer.calendarPct := 71%float |} |}.

Definition suggest (memberId : string) (skillMatchPct : float)
  : Scorer.Suggestion :=
  {| Scorer.memberId := memberId; Scorer.skillMatchPct := skillMatchPct;
     Scorer.workloadPct := 29%float; Scorer.contextReason := "" |}.

Definition task_001 : Scorer.Task :=
  {| Scorer.task_id := "task-001";
     Scorer.title := "Auth service migration to OAuth 2.0";
     Scorer.suggestions := [suggest "mem-1" 90%float] |}.

Definition alex_kim : Scorer.TeamMember :=
  {| Scorer.id := "mem-3"; Scorer.name := "Alex Kim";
     Scorer.dataSources := {| Scorer.calendarPct := 40%float |} |}.

Definition roster : option (list Scorer.TeamMember) :=
  Some [jordan_lee; alex_kim].

(** Three suggestions, the first of them for a member who is not in
    [roster]. *)
Definition task_002 : Scorer.Task :=
  {| Scorer.task_id := "task-002";
     Scorer.title := "Checkout latency";
     Scorer.suggestions :=
       [suggest "mem-9" 40%float; suggest "mem-3" 60%float;
        suggest "mem-1" 90%float] |}.

End Sample.

(** Data for the pages' scenarios. *)
Module SampleExtra.

(** The task list holds [task_001], at risk and assigned to Alex Kim. *)
Definition panel_task_001 : Panel.PanelTask :=
  {| Panel.task := Sample.task_001;
     Panel.status := Panel.at_risk;
     Panel.assigneeId := Some "mem-3" |}.

(** [task_001] is selected; nothing is overridden or running. *)
Definition store_001 : Panel.Store :=
  {| Panel.selectedTaskId := Some "task-001";
     Panel.taskStatusOverrides := ∅;
     Panel.pipelineRunning := ∅ |}.

Definition maya_ics : Settings.File :=
  {| Settings.file_name := "maya.ics";
     Settings.file_content := "BEGIN:VCALENDAR" |}.

Definition team_zip : Settings.File :=
  {| Settings.file_name := "team.zip"; Settings.file_content := "PK" |}.

Definition notes_txt : Settings.File :=
  {| Settings.file_name := "notes.txt"; Settings.file_content := "" |}.

(** One file is selected and the last upload processed one member. *)
Definition one_selected : Settings.UploadState :=
  {| Settings.files := [maya_ics]; Settings.results := Some ["mem-2"] |}.

(** A Clerk error that has a short message only. *)
Definition wrong_password : SignIn.ClerkError :=
  {| SignIn.longMessage := None;
     SignIn.message := Some "Password is incorrect." |}.

End SampleExtra.

(* ===================================================================== *)
(** * Properties of the name matching strategy *)
(* ===================================================================== *)

#[local] Open Scope nat_scope.

Section SequenceMatcherFacts.
Context {A : Type} `{EqDecision A}.
Import SequenceMatcher.

Lemma newj2len_bound (x : A) n b : forall j2len diag,
  Forall (fun k => k <= n) j2len -> diag <= n ->
  Forall (fun k => k <= S n) (newj2len x b j2len diag).
Proof.
  induction b as [|y b IH]; intros [|k j2len] diag Hrow Hdiag; simpl;
    try constructor.
  - destruct (decide (x = y)); lia.
  - apply Forall_cons in Hrow as [Hk Hrow]. by apply IH.
Qed.

Lemma update_best_bound i row : forall j best,
  Forall (fun k => k <= S i) row ->
  best.1.1 + size best <= S i ->
  (update_best i j row best).1.1 + size (update_best i j row best) <= S i.
Proof.
  induction row as [|k row IH]; intros j best Hrow Hbest; simpl; [done|].
  apply Forall_cons in Hrow as [Hk Hrow]. apply IH; [done|].
  destruct (size best <? k); [|done]. unfold size; simpl. lia.
Qed.

Lemma find_longest_loop_bound (a b : list A) : forall i j2len best,
  Forall (fun k => k <= i) j2len ->
  best.1.1 + size best <= i ->
  (find_longest_loop i a b j2len best).1.1
  + size (find_longest_loop i a b j2len best) <= i + length a.
Proof.
  induction a as [|x a IH]; intros i j2len best Hrow Hbest; simpl.
  - lia.
  - replace (i + S (length a)) with (S i + length a) by lia.
    assert (Forall (fun k => k <= S i) (newj2len x b j2len 0)) as Hnew
      by (apply newj2len_bound; [done|lia]).
    apply IH; [done|]. apply update_best_bound; [done|lia].
Qed.

(** The longest block ends within [a]. *)
Lemma find_longest_match_bound (a b : list A) i j k :
  find_longest_match a b = (i, j, k) -> i + k <= length a.
Proof.
  intros Hm.
  pose proof (find_longest_loop_bound a b 0 (replicate (length b) 0)
                (0, 0, 0)) as Hb.
  unfold find_longest_match in Hm. rewrite Hm in Hb. apply Hb.
  - apply Forall_replicate. lia.
  - simpl. lia.
Qed.

(** The fuel of [get_matching_blocks] is never used up: any fuel above
    the length of [a] gives the same blocks. *)
Lemma matching_blocks_fuel fuel1 : forall fuel2 alo blo (a b : list A),
  length a < fuel1 -> length a < fuel2 ->
  matching_blocks fuel1 alo blo a b = matching_blocks fuel2 alo blo a b.
Proof.
  induction fuel1 as [|fuel1 IH]; intros [|fuel2] alo blo a b H1 H2;
    try lia.
  simpl. destruct (find_longest_match a b) as [[i j] k] eqn:Hm.
  apply find_longest_match_bound in Hm.
  destruct (k =? 0) eqn:Hk; [done|]. apply Nat.eqb_neq in Hk.
  f_equal; [|f_equal].
  - destruct ((0 <? i) && (0 <? j)); [|done].
    apply IH; rewrite length_take; lia.
  - destruct ((i + k <? length a) && (j + k <? length b)); [|done].
    apply IH; rewrite length_drop; lia.
Qed.

Lemma get_matching_blocks_fuel fuel (a b : list A) :
  length a < fuel ->
  matching_blocks fuel 0 0 a b = get_matching_blocks a b.
Proof. intros Hf. apply matching_blocks_fuel; [done|lia]. Qed.
(** The blocks are disjoint parts of [a]. *)
Lemma matching_blocks_sum fuel : forall alo blo (a b : list A),
  sum_list_with size (matching_blocks fuel alo blo a b) <= length a.
Proof.
  induction fuel as [|fuel IH]; intros alo blo a b; simpl; [lia|].
  destruct (find_longest_match a b) as [[i j] k] eqn:Hm.
  apply find_longest_match_bound in Hm.
  destruct (k =? 0); simpl; [lia|].
  rewrite sum_list_with_app. simpl.
  assert (sum_list_with size
            (if (0 <? i) && (0 <? j)
             then matching_blocks fuel alo blo (take i a) (take j b)
             else []) <= i) as Hleft.
  { destruct ((0 <? i) && (0 <? j)); simpl; [|lia].
    etrans; [apply IH|]. rewrite length_take. lia. }
  assert (sum_list_with size
            (if (i + k <? length a) && (j + k <? length b)
             then matching_blocks fuel (alo + i + k) (blo + j + k)
                    (drop (i + k) a) (drop (j + k) b)
             else []) <= length a - (i + k)) as Hright.
  { destruct ((i + k <? length a) && (j + k <? length b)); simpl; [|lia].
    etrans; [apply IH|]. by rewrite length_drop. }
  etrans; [apply Nat.add_le_mono;
             [exact Hleft | apply Nat.add_le_mono_l; exact Hright]|].
  lia.
Qed.

(** No ratio exceeds [2 * len(a) / (len(a) + len(b))]. *)
Lemma ratio_le_first (a b : list A) :
  length a + length b <> 0 ->
  (ratio a b
   <= Z.of_nat (2 * length a) # Pos.of_nat (length a + length b))%Q.
Proof.
  intros HT. unfold ratio, _calculate_ratio.
  destruct (length a + length b) as [|T] eqn:HTeq; [done|].
  unfold Qle; simpl.
  apply Z.mul_le_mono_nonneg_r; [lia|].
  pose proof (matching_blocks_sum (S (length a)) 0 0 a b) as Hsum.
  unfold get_matching_blocks. lia.
Qed.
End SequenceMatcherFacts.

Lemma chars_length s : length (PyStr.chars s) = String.length s.
Proof. induction s as [|c s IH]; simpl; congruence. Qed.

Lemma lower_length s : String.length (PyStr.lower s) = String.length s.
Proof. induction s as [|c s IH]; simpl; congruence. Qed.


Lemma Qltb_true x y : Qltb x y = true <-> (x < y)%Q.
Proof.
  unfold Qltb. rewrite negb_true_iff, <- not_true_iff_false, Qle_bool_iff.
  split; [apply Qnot_le_lt | apply Qlt_not_le].
Qed.

Lemma Qltb_false x y : Qltb x y = false <-> (y <= x)%Q.
Proof. unfold Qltb. rewrite negb_false_iff. apply Qle_bool_iff. Qed.

Section MatcherFacts.
Context {TeamMember : Type} (name : TeamMember -> string).
Import Matcher.

Lemma best_loop_inv norm members :
  forall seen best_ratio best_member,
    best_so_far name norm seen best_ratio best_member ->
    best_so_far name norm (seen ++ members)
      (best_loop name norm (length seen) members best_ratio best_member).1
      (best_loop name norm (length seen) members best_ratio best_member).2.
Proof.
  induction members as [|m members IH]; intros seen br bm Hinv; simpl.
  - by rewrite app_nil_r.
  - replace (seen ++ m :: members) with ((seen ++ [m]) ++ members)
      by (by rewrite <- app_assoc).
    replace (S (length seen)) with (length (seen ++ [m]))
      by (rewrite length_app; simpl; lia).
    destruct Hinv as [Hle Hbest].
    destruct (Qltb br (member_ratio name norm m)) eqn:Hcmp; apply IH.
    + apply Qltb_true in Hcmp. split.
      * intros j m' Hj. apply lookup_app_Some in Hj as [Hj|[_ Hj]].
        -- apply Qlt_le_weak. eapply Qle_lt_trans; eauto.
        -- apply list_lookup_singleton_Some in Hj as [_ <-]. apply Qle_refl.
      * split; [|split].
        -- rewrite lookup_app_r by lia. by rewrite Nat.sub_diag.
        -- reflexivity.
        -- intros j m' Hlt Hj. rewrite lookup_app_l in Hj by lia.
           eapply Qle_lt_trans; eauto.
    + apply Qltb_false in Hcmp. split.
      * intros j m' Hj. apply lookup_app_Some in Hj as [Hj|[_ Hj]]; [eauto|].
        by apply list_lookup_singleton_Some in Hj as [_ <-].
      * destruct bm as [[k mk]|]; [|done].
        destruct Hbest as (Hk & Heq & Hfirst). split; [|split]; [|done|].
        -- by apply lookup_app_l_Some.
        -- intros j m' Hlt Hj. apply (Hfirst j m' Hlt).
           apply lookup_lt_Some in Hk.
           by rewrite lookup_app_l in Hj by lia.
Qed.

(** A Slack handle, normalised: every leading [@] goes, dots become
    spaces, the ends are trimmed, letters are lower-cased. *)
Example normalise_handle :
  normalise "@@Jordan.Lee " = "jordan lee"
  /\ normalise " @maya" = "@maya".
Proof. split; reflexivity. Qed.

(** The whole loop, from [best_ratio, best_member = 0.0, None]. *)
Lemma best_loop_all norm members :
  best_so_far name norm members
    (best_loop name norm 0 members 0%Q None).1
    (best_loop name norm 0 members 0%Q None).2.
Proof.
  apply (best_loop_inv norm members [] 0%Q None).
  split; [intros j m Hj; by rewrite lookup_nil in Hj | reflexivity].
Qed.

(** The matched member is the element of the roster at the matched
    position. *)
Lemma best_member_at_lookup username members i m :
  best_member_at name username members = Some (i, m) ->
  members !! i = Some m.
Proof.
  unfold best_member_at.
  pose proof (best_loop_all (normalise username) members) as [_ Hbest].
  destruct (best_loop name (normalise username) 0 members 0%Q None)
    as [br bm]; simpl in *.
  destruct (Qle_bool threshold br); [|done].
  intros ->. by destruct Hbest as [? _].
Qed.

(** A reference that is shorter than three fifths of a name stays below
    the threshold against it, whatever the characters are. *)
Lemma short_reference_ratio norm (m : TeamMember) :
  5 * String.length norm < 3 * String.length (name m) ->
  (member_ratio name norm m < threshold)%Q.
Proof.
  intros Hlen. unfold member_ratio, str_ratio.
  eapply Qle_lt_trans.
  - apply ratio_le_first. rewrite !chars_length, lower_length. lia.
  - rewrite !chars_length, lower_length. unfold threshold, Qlt.
    cbn [Qnum Qden]. lia.
Qed.

(** Such a reference finds nobody: a first name alone does not reach a
    full name that is more than five thirds as long. *)
Lemma short_reference_no_match username members :
  (forall m, m ∈ members ->
     5 * String.length (normalise username) < 3 * String.length (name m)) ->
  _best_member_match name username members = None.
Proof.
  intros Hshort. unfold _best_member_match, best_member_at.
  pose proof (best_loop_all (normalise username) members) as [_ Hbest].
  destruct (best_loop name (normalise username) 0 members 0%Q None)
    as [br bm].
  cbn [fst snd] in *.
  destruct bm as [[k mk]|]; [|by destruct (Qle_bool threshold br)].
  destruct Hbest as (Hk & Heq & _).
  destruct (Qle_bool threshold br) eqn:Hthr; [|done].
  apply Qle_bool_iff in Hthr. rewrite Heq in Hthr.
  exfalso. apply (Qlt_not_le _ _ (short_reference_ratio _ mk
    (Hshort mk (list_elem_of_lookup_2 _ _ _ Hk))) Hthr).
Qed.

(** C6, as amended.  For a roster that holds one member, named
    "Maya Patel", the reference "maya" finds nobody: its ratio with
    "maya patel" is 8/14, below 0.75.  The reference "zzz" finds nobody
    either, and the full name "maya.patel" finds the member. *)
Theorem first_name_below_threshold (m : TeamMember) :
  name m = "Maya Patel" ->
  _best_member_match name "maya" [m] = None
  /\ str_ratio "maya" "maya patel" = (8 # 14)%Q
  /\ _best_member_match name "zzz" [m] = None
  /\ _best_member_match name "maya.patel" [m] = Some m.
Proof.
  intros Hname.
  unfold _best_member_match, best_member_at; simpl.
  unfold member_ratio. rewrite Hname.
  repeat split; vm_compute; reflexivity.
Qed.

End MatcherFacts.

Lemma first_name_below_threshold_witness :
  Reconcile.name Sample.maya_patel = "Maya Patel"
  /\ Matcher._best_member_match Reconcile.name "maya" [Sample.maya_patel]
     = None.
Proof.
  split; [reflexivity|].
  apply (first_name_below_threshold Reconcile.name Sample.maya_patel).
  reflexivity.
Defined.

(** C6 fails as stated: the reference "maya" does not return the member
    named "Maya Patel". *)
Lemma maya_is_not_matched :
  ~ (Matcher._best_member_match Reconcile.name "maya" [Sample.maya_patel]
       = Some Sample.maya_patel
     /\ Matcher._best_member_match Reconcile.name "zzz" [Sample.maya_patel]
       = None).
Proof. intros [Hmaya _]. vm_compute in Hmaya. discriminate. Qed.

(* ===================================================================== *)
(** * Properties of the coverage scorer *)
(* ===================================================================== *)

#[local] Open Scope nat_scope.

(** Two doubles that [=?] tells apart are different. *)
Lemma float_eqb_false_neq (x y : float) :
  (x =? y)%float = false -> (y =? y)%float = true -> x <> y.
Proof. intros Hxy Hyy ->. congruence. Qed.

Section Binary64Order.
Import Binary64.
#[local] Open Scope Z_scope.

Lemma digits2_bounds (m : positive) :
  2 ^ (Z.pos (digits2_pos m) - 1) <= Z.pos m < 2 ^ Z.pos (digits2_pos m).
Proof.
  induction m as [m IH|m IH|]; simpl digits2_pos.
  - rewrite Pos2Z.inj_succ.
    replace (Z.succ (Z.pos (digits2_pos m)) - 1)
      with (Z.succ (Z.pos (digits2_pos m) - 1)) by lia.
    rewrite !Z.pow_succ_r by lia. lia.
  - rewrite Pos2Z.inj_succ.
    replace (Z.succ (Z.pos (digits2_pos m)) - 1)
      with (Z.succ (Z.pos (digits2_pos m) - 1)) by lia.
    rewrite !Z.pow_succ_r by lia. lia.
  - simpl. lia.
Qed.

(** What [valid_binary] says of a finite double. *)
Lemma bounded_inv (m : positive) (e : Z) :
  bounded 53 1024 m e = true ->
  -1074 <= e <= 971 /\ Z.pos m < 2 ^ 53
  /\ (e = -1074 \/ 2 ^ 52 <= Z.pos m).
Proof.
  unfold bounded, canonical_mantissa, fexp, emin.
  intros [Hc He]%andb_true_iff.
  apply Z.eqb_eq in Hc. apply Z.leb_le in He.
  pose proof (digits2_bounds m) as [Hlo Hhi].
  set (d := Z.pos (digits2_pos m)) in *.
  assert (d <= 53) as Hd by lia.
  split; [lia|]. split.
  - apply Z.lt_le_trans with (2 ^ d); [done|].
    apply Z.pow_le_mono_r; lia.
  - destruct (decide (e = -1074)) as [|Hne]; [by left|right].
    assert (d = 53) as Hd53 by lia.
    rewrite Hd53 in Hlo. exact Hlo.
Qed.

Lemma pow_1074_pos e : -1074 <= e -> 0 < 2 ^ (e + 1074).
Proof. intros. apply Z.pow_pos_nonneg; lia. Qed.

Lemma finite_ord_lt (m1 m2 : positive) (e1 e2 : Z) :
  bounded 53 1024 m1 e1 = true -> bounded 53 1024 m2 e2 = true ->
  e1 < e2 ->
  Z.pos m1 * 2 ^ (e1 + 1074) < Z.pos m2 * 2 ^ (e2 + 1074).
Proof.
  intros (He1 & Hm1 & _)%bounded_inv (He2 & _ & Hn2)%bounded_inv Hlt.
  destruct Hn2 as [Hn2|Hn2]; [exfalso; clear Hm1; lia|].
  pose proof (pow_1074_pos e1 (proj1 He1)) as Hp1.
  apply Z.lt_le_trans with (2 ^ 53 * 2 ^ (e1 + 1074)).
  { apply Z.mul_lt_mono_pos_r; lia. }
  apply Z.le_trans with (2 ^ 52 * 2 ^ (e2 + 1074)).
  - replace (e2 + 1074) with ((e2 - e1 - 1) + 1 + (e1 + 1074)) by lia.
    rewrite (Z.pow_add_r 2 (e2 - e1 - 1 + 1) (e1 + 1074)) by lia.
    rewrite (Z.pow_add_r 2 (e2 - e1 - 1) 1) by lia.
    assert (1 <= 2 ^ (e2 - e1 - 1))
      by (pose proof (Z.pow_pos_nonneg 2 (e2 - e1 - 1)); lia).
    change (2 ^ 53) with (2 ^ 52 * 2). change (2 ^ 1) with 2. nia.
  - apply Z.mul_le_mono_nonneg_r; lia.
Qed.

Lemma finite_ord_compare (m1 m2 : positive) (e1 e2 : Z) :
  bounded 53 1024 m1 e1 = true -> bounded 53 1024 m2 e2 = true ->
  match e1 ?= e2 with
  | Lt => Lt
  | Gt => Gt
  | Eq => Pos.compare_cont Eq m1 m2
  end
  = (Z.pos m1 * 2 ^ (e1 + 1074) ?= Z.pos m2 * 2 ^ (e2 + 1074)).
Proof.
  intros H1 H2. destruct (Z.compare_spec e1 e2) as [->|Hlt|Hgt].
  - apply bounded_inv in H2 as (He & _).
    pose proof (pow_1074_pos e2 ltac:(lia)).
    change (Pos.compare_cont Eq m1 m2) with (Z.pos m1 ?= Z.pos m2).
    destruct (Z.compare_spec (Z.pos m1) (Z.pos m2)) as [Heq|Hl|Hg];
      symmetry;
      [apply Z.compare_eq_iff; by rewrite Heq
      |apply Z.compare_lt_iff; nia|apply Z.compare_gt_iff; nia].
  - symmetry. apply Z.compare_lt_iff. by apply finite_ord_lt.
  - symmetry. apply Z.compare_gt_iff. by apply finite_ord_lt.
Qed.

Lemma finite_ord_range (m : positive) (e : Z) :
  bounded 53 1024 m e = true ->
  0 < Z.pos m * 2 ^ (e + 1074) < 2 ^ 2100.
Proof.
  intros (He & Hm & _)%bounded_inv.
  pose proof (pow_1074_pos e ltac:(lia)) as Hp. split; [lia|].
  apply Z.lt_le_trans with (2 ^ 53 * 2 ^ (e + 1074)).
  { apply Z.mul_lt_mono_pos_r; lia. }
  rewrite <- Z.pow_add_r by lia. apply Z.pow_le_mono_r; lia.
Qed.

(** On numbers [SFcompare] is the order of the integers [ord]. *)
Lemma SFcompare_ord (x y : spec_float) :
  valid_binary 53 1024 x = true -> valid_binary 53 1024 y = true ->
  is_number x = true -> is_number y = true ->
  SFcompare x y = Some (ord x ?= ord y).
Proof.
  intros Hx Hy Nx Ny.
  assert (0 < 2 ^ 2100) as Hinf by (apply Z.pow_pos_nonneg; lia).
  destruct x as [sx|sx| |sx mx ex], y as [sy|sy| |sy my ey];
    try discriminate; simpl in Hx, Hy; cbn [SFcompare ord];
    try pose proof (finite_ord_range _ _ Hx) as Rx;
    try pose proof (finite_ord_range _ _ Hy) as Ry.
  all: destruct sx, sy; cbn [cond_Zopp]; try reflexivity; f_equal.
  all: try (symmetry;
            first [apply Z.compare_eq_iff; lia | apply Z.compare_lt_iff; lia
                  | apply Z.compare_gt_iff; lia]).
  - rewrite Z.compare_opp.
    rewrite (Z.compare_antisym (Z.pos mx * 2 ^ (ex + 1074))).
    rewrite <- (finite_ord_compare _ _ _ _ Hx Hy).
    destruct (ex ?= ey); reflexivity.
  - apply finite_ord_compare; done.
Qed.

Lemma shr_1_m (mrs : shr_record) :
  0 <= shr_m mrs -> shr_m (shr_1 mrs) = shr_m mrs / 2.
Proof.
  destruct mrs as [m r s]; simpl. intros Hm. rewrite <- Z.div2_div.
  destruct m as [|[p|p|]|p]; try reflexivity. lia.
Qed.

Lemma pow_xO (p : positive) : 2 ^ Z.pos p~0 = 2 ^ Z.pos p * 2 ^ Z.pos p.
Proof.
  replace (Z.pos p~0) with (Z.pos p + Z.pos p) by lia.
  apply Z.pow_add_r; lia.
Qed.

Lemma pow_xI (p : positive) :
  2 ^ Z.pos p~1 = 2 * (2 ^ Z.pos p * 2 ^ Z.pos p).
Proof.
  rewrite <- pow_xO.
  replace (Z.pos p~1) with (1 + Z.pos p~0) by lia.
  rewrite Z.pow_add_r by lia. reflexivity.
Qed.

Lemma iter_shr_1_m (p : positive) : forall mrs,
  0 <= shr_m mrs ->
  shr_m (SpecFloat.iter_pos shr_1 p mrs) = shr_m mrs / 2 ^ Z.pos p.
Proof.
  assert (forall q, 0 < 2 ^ Z.pos q) as Hpow
    by (intros q; apply Z.pow_pos_nonneg; lia).
  induction p as [p IH|p IH|]; intros mrs Hm; simpl SpecFloat.iter_pos.
  - assert (0 <= shr_m (shr_1 mrs)) as H1
      by (rewrite shr_1_m by done; apply Z.div_pos; lia).
    assert (0 <= shr_m (SpecFloat.iter_pos shr_1 p (shr_1 mrs))) as H2
      by (rewrite IH by done; apply Z.div_pos; [done|apply Hpow]).
    rewrite IH, IH, shr_1_m by done.
    pose proof (Hpow p).
    rewrite !Z.div_div by lia. rewrite pow_xI. reflexivity.
  - assert (0 <= shr_m (SpecFloat.iter_pos shr_1 p mrs)) as H2
      by (rewrite IH by done; apply Z.div_pos; [done|apply Hpow]).
    rewrite IH, IH by done.
    pose proof (Hpow p).
    rewrite !Z.div_div by lia. by rewrite pow_xO.
  - by apply shr_1_m.
Qed.

(** A shift by fewer places than the mantissa has digits leaves a
    mantissa that is not zero. *)
Lemma shr_pos (mrs : shr_record) (e n : Z) :
  0 < shr_m mrs -> n < Zdigits2 (shr_m mrs) ->
  0 < shr_m (shr mrs e n).1 /\ e <= (shr mrs e n).2.
Proof.
  intros Hm Hn. destruct n as [|p|p]; simpl; [lia| |lia].
  split; [|lia]. rewrite iter_shr_1_m by lia.
  destruct (shr_m mrs) as [|m|m] eqn:Em; try lia.
  simpl in Hn. pose proof (digits2_bounds m) as [Hlo _].
  apply Z.div_str_pos. split; [apply Z.pow_pos_nonneg; lia|].
  apply Z.le_trans with (2 ^ (Z.pos (digits2_pos m) - 1)); [|done].
  apply Z.pow_le_mono_r; lia.
Qed.

Lemma shr_m_of_loc m l : shr_m (shr_record_of_loc m l) = m.
Proof. by destruct l as [|[]]. Qed.

Lemma Zdigits2_pos m : 0 < m -> 0 < Zdigits2 m.
Proof. destruct m; simpl; lia. Qed.

Lemma shr_fexp_pos (m e : Z) (l : location) :
  0 < m -> -1074 <= e ->
  0 < shr_m (shr_fexp 53 1024 m e l).1
  /\ -1074 <= (shr_fexp 53 1024 m e l).2.
Proof.
  intros Hm He. unfold shr_fexp.
  pose proof (Zdigits2_pos m Hm) as Hd.
  destruct (shr_pos (shr_record_of_loc m l) e
              (fexp 53 1024 (Zdigits2 m + e) - e)) as [H1 H2].
  - by rewrite shr_m_of_loc.
  - rewrite shr_m_of_loc. unfold fexp, emin. lia.
  - split; [done|lia].
Qed.

Lemma round_nearest_even_pos m l : 0 < m -> 0 < round_nearest_even m l.
Proof. intros Hm. destruct l as [|[]]; simpl; try done; [|lia].
  destruct (Z.even m); lia. Qed.

Lemma binary_round_aux_positive (m e : Z) (l : location) :
  0 < m -> -1074 <= e ->
  is_positive (binary_round_aux 53 1024 false m e l) = true.
Proof.
  intros Hm He. unfold binary_round_aux.
  destruct (shr_fexp_pos m e l Hm He) as [H1 H2].
  destruct (shr_fexp 53 1024 m e l) as [mrs' e']. simpl in H1, H2.
  pose proof (round_nearest_even_pos _ (loc_of_shr_record mrs') H1) as Hr.
  destruct (shr_fexp_pos _ e' loc_Exact Hr H2) as [H3 H4].
  destruct (shr_fexp 53 1024 _ e' loc_Exact) as [mrs'' e''].
  simpl in H3. destruct (shr_m mrs''); try lia.
  by destruct (e'' <=? 1024 - 53).
Qed.

Lemma binary_round_positive (m : positive) (e : Z) :
  -1074 <= e ->
  is_positive (binary_round 53 1024 false m e) = true.
Proof.
  intros He. unfold binary_round.
  destruct (shl_align m e (fexp 53 1024 (Z.pos (digits2_pos m) + e)))
    as [mz ez] eqn:Hal.
  apply binary_round_aux_positive; [lia|].
  unfold shl_align in Hal.
  destruct (fexp 53 1024 (Z.pos (digits2_pos m) + e) - e) eqn:Hd;
    injection Hal as <- <-; try done.
  unfold fexp, emin. lia.
Qed.

Lemma binary_round_negative (m : positive) (e : Z) :
  is_positive (binary_round 53 1024 true m e) = false.
Proof.
  unfold binary_round.
  destruct (shl_align m e _) as [mz ez].
  unfold binary_round_aux.
  destruct (shr_fexp 53 1024 (Z.pos mz) ez loc_Exact) as [mrs' e'].
  destruct (shr_fexp 53 1024 _ e' loc_Exact) as [mrs'' e''].
  destruct (shr_m mrs''); try done.
  by destruct (e'' <=? 1024 - 53).
Qed.

Lemma SFltb_zero (s : bool) (x : spec_float) :
  SFltb (S754_zero s) x = is_positive x.
Proof. by destruct x as [[]|[]| |[] m e]. Qed.

Lemma iter_xO_value (m d : positive) :
  Z.pos (Pos.iter xO m d) = Z.pos m * 2 ^ Z.pos d.
Proof.
  transitivity (Z.shiftl (Z.pos m) (Z.pos d));
    [|apply Z.shiftl_mul_pow2; lia].
  simpl. apply (Pos.iter_swap_gen _ _ Z.pos xO (Z.mul 2)). reflexivity.
Qed.

Lemma shl_align_value (m : positive) (e ez : Z) :
  ez <= e -> Z.pos (shl_align m e ez).1 = Z.pos m * 2 ^ (e - ez).
Proof.
  intros Hle. unfold shl_align.
  destruct (ez - e) as [|d|d] eqn:Hd; simpl; try lia.
  - replace (e - ez) with 0 by lia. lia.
  - rewrite iter_xO_value. f_equal. f_equal. lia.
Qed.

Lemma finite_ord_split (s : bool) (m : positive) (e ez : Z) :
  -1074 <= ez <= e ->
  cond_Zopp s (Z.pos m * 2 ^ (e + 1074))
  = cond_Zopp s (Z.pos (shl_align m e ez).1) * 2 ^ (ez + 1074).
Proof.
  intros He. rewrite shl_align_value by lia.
  replace (e + 1074) with ((e - ez) + (ez + 1074)) by lia.
  rewrite Z.pow_add_r by lia. destruct s; simpl; lia.
Qed.

(** The sign of a difference of two numbers is the order of the two:
    rounding never takes a difference that is not zero to zero. *)
Lemma SFsub_positive (x y : spec_float) :
  valid_binary 53 1024 x = true -> valid_binary 53 1024 y = true ->
  is_number x = true -> is_number y = true ->
  is_positive (SFsub 53 1024 y x) = (ord x <? ord y).
Proof.
  intros Hx Hy Nx Ny.
  assert (0 < 2 ^ 2100) as Hinf by (apply Z.pow_pos_nonneg; lia).
  destruct x as [sx|sx| |sx mx ex], y as [sy|sy| |sy my ey];
    try discriminate; simpl in Hx, Hy;
    try pose proof (finite_ord_range _ _ Hx) as Rx;
    try pose proof (finite_ord_range _ _ Hy) as Ry.
  9: {
    pose proof (bounded_inv _ _ Hx) as (Hex & _).
    pose proof (bounded_inv _ _ Hy) as (Hey & _).
    cbn [SFsub ord].
    set (ez := Z.min ey ex).
    rewrite (finite_ord_split sx mx ex ez) by lia.
    rewrite (finite_ord_split sy my ey ez) by lia.
    pose proof (pow_1074_pos ez ltac:(lia)) as Hp.
    set (vx := cond_Zopp sx (Z.pos (shl_align mx ex ez).1)).
    set (vy := cond_Zopp sy (Z.pos (shl_align my ey ez).1)).
    destruct (vy - vx) as [|p|p] eqn:Hz; cbn [binary_normalize].
    - symmetry. apply Z.ltb_ge. nia.
    - rewrite binary_round_positive by lia.
      symmetry. apply Z.ltb_lt. nia.
    - rewrite binary_round_negative.
      symmetry. apply Z.ltb_ge. nia. }
  all: destruct sx, sy; cbn [SFsub is_positive ord cond_Zopp negb];
    symmetry; first [apply Z.ltb_lt; lia | apply Z.ltb_ge; lia].
Qed.

Lemma is_nan_number (x : float) :
  PrimFloat.is_nan x = false -> is_number (Prim2SF x) = true.
Proof.
  unfold PrimFloat.is_nan. rewrite FloatAxioms.eqb_spec.
  by destruct (Prim2SF x).
Qed.

(** [b - a > 0] exactly where [a < b], for all doubles. *)
Lemma sub_positive_ltb (x y : float) :
  (0 <? y - x)%float = (x <? y)%float.
Proof.
  rewrite !FloatAxioms.ltb_spec, FloatAxioms.sub_spec.
  change (Prim2SF 0) with (S754_zero false). rewrite SFltb_zero.
  pose proof (Prim2SF_valid x) as Hx. pose proof (Prim2SF_valid y) as Hy.
  unfold SF64sub.
  destruct (is_number (Prim2SF x)) eqn:Nx;
    [|by destruct (Prim2SF x), (Prim2SF y) as [[]|[]| |[] ? ?]].
  destruct (is_number (Prim2SF y)) eqn:Ny;
    [|by destruct (Prim2SF y), (Prim2SF x) as [[]|[]| |[] ? ?]].
  rewrite SFsub_positive by done.
  unfold SFltb. rewrite SFcompare_ord by done. reflexivity.
Qed.

(** On doubles that are not NaN, [<] is the order of the integers
    [ord]. *)
Lemma ltb_ord (x y : float) :
  PrimFloat.is_nan x = false -> PrimFloat.is_nan y = false ->
  (x <? y)%float = (ord (Prim2SF x) <? ord (Prim2SF y)).
Proof.
  intros Nx%is_nan_number Ny%is_nan_number.
  rewrite FloatAxioms.ltb_spec. unfold SFltb.
  rewrite SFcompare_ord by (done || apply Prim2SF_valid). reflexivity.
Qed.

End Binary64Order.

Section SortFacts.
Context {A : Type} (cmp : A -> A -> float).

Lemma insert_perm x l : Scorer.insert cmp x l ≡ₚ x :: l.
Proof.
  induction l as [|y l IH]; simpl; [done|].
  destruct (Scorer.after cmp x y); [|done].
  rewrite IH. apply Permutation_swap.
Qed.

Lemma sort_perm l : Scorer.sort cmp l ≡ₚ l.
Proof.
  induction l as [|x l IH]; simpl; [done|].
  by rewrite insert_perm, IH.
Qed.

Lemma insert_sorted L x l :
  Scorer.asymmetric_on cmp L -> Scorer.neg_transitive_on cmp L ->
  x ∈ L -> l ⊆ L ->
  StronglySorted (Scorer.not_after cmp) l ->
  StronglySorted (Scorer.not_after cmp) (Scorer.insert cmp x l).
Proof.
  intros Hasym Htrans Hx. induction l as [|y l IH]; intros Hl Hs; simpl.
  - repeat constructor.
  - apply StronglySorted_inv in Hs as [Hs Hy].
    assert (y ∈ L) as HyL by (apply Hl; left).
    assert (l ⊆ L) as HlL by (intros z Hz; apply Hl; by right).
    destruct (Scorer.after cmp x y) eqn:Hxy.
    + constructor; [by apply IH|].
      rewrite insert_perm. constructor; [by apply Hasym|done].
    + constructor; [by constructor|].
      constructor; [done|].
      rewrite Forall_forall in Hy |- *. intros z Hz.
      apply (Htrans x y z); auto. by apply Hy.
Qed.

Lemma sort_sorted l :
  Scorer.asymmetric_on cmp l -> Scorer.neg_transitive_on cmp l ->
  StronglySorted (Scorer.not_after cmp) (Scorer.sort cmp l).
Proof.
  intros Hasym Htrans.
  assert (forall l', l' ⊆ l ->
            StronglySorted (Scorer.not_after cmp) (Scorer.sort cmp l'))
    as H.
  { induction l' as [|x l' IH]; intros Hsub; simpl; [constructor|].
    apply (insert_sorted l); auto.
    - apply Hsub; left.
    - rewrite sort_perm. intros z Hz. apply Hsub. by right.
    - apply IH. intros z Hz. apply Hsub. by right. }
  by apply H.
Qed.

Lemma StronglySorted_lookup_lt (R : A -> A -> Prop) l i j a b :
  StronglySorted R l -> i < j -> l !! i = Some a -> l !! j = Some b -> R a b.
Proof.
  intros Hs. revert i j.
  induction Hs as [|x l Hs IH Hx]; intros i j Hij Hi Hj.
  - by rewrite lookup_nil in Hi.
  - destruct j as [|j]; [lia|]. simpl in Hj. destruct i as [|i]; simpl in Hi.
    + injection Hi as <-. rewrite Forall_forall in Hx. apply Hx.
      by eapply list_elem_of_lookup_2.
    + apply (IH i j); [lia|done|done].
Qed.


End SortFacts.

Section ScorerFacts.
Import Scorer Binary64.
#[local] Open Scope float_scope.

(** C2 fails as stated: in the arithmetic of the code the score of
    [skillMatchPct = 90], [calendarPct = 71] is not the number 76.7. *)
Lemma combined_score_90_71_is_not_76_7 :
  getCombinedScore 90 71 <> 76.7.
Proof. apply float_eqb_false_neq; vm_compute; reflexivity. Qed.

(** C2, as amended.  For all inputs [getCombinedScore] is
    [calendarPct * 0.7 + skillMatchPct * 0.3] in binary64 arithmetic.
    For 90 and 71 the formula is worth exactly 76.7 over the rationals,
    and the code returns 76.69999999999999, the double just below the
    one nearest to 76.7: less than 2^-46 under 76.7. *)
Theorem getCombinedScore_formula :
  (forall skillMatchPct calendarPct,
      getCombinedScore skillMatchPct calendarPct
      = calendarPct * 0.7 + skillMatchPct * 0.3)
  /\ (combinedScore_exact 90 71 == 767 # 10)%Q
  /\ getCombinedScore 90 71 = 76.69999999999999
  /\ getCombinedScore 90 71 = next_down 76.7
  /\ exists v, exact_value (getCombinedScore 90 71) = Some v
       /\ (v < 767 # 10)%Q /\ ((767 # 10) - v < 1 # 2 ^ 46)%Q.
Proof.
  split; [reflexivity|]. split; [reflexivity|].
  split; [vm_compute; reflexivity|]. split; [vm_compute; reflexivity|].
  eexists. split; [vm_compute; reflexivity|]. split; reflexivity.
Qed.

(** Suggestions of equal score are left in place by the comparator. *)
Lemma equal_score_not_after (l : list Scored) a b :
  asymmetric_on comparefn l -> a ∈ l ->
  _combined a = _combined b -> after comparefn a b = false.
Proof.
  intros Hasym Ha Heq. unfold after, comparefn. rewrite <- Heq.
  destruct (0 <? _combined a - _combined a) eqn:Haa; [|done].
  rewrite <- Haa. by apply (Hasym a a).
Qed.

(** The comparator asks for [a] after [b] exactly where the score of
    [a] is below the score of [b]: that is the sign of
    [b._combined - a._combined], whatever the two doubles. *)
Lemma after_ltb (a b : Scored) :
  after comparefn a b = (_combined a <? _combined b).
Proof. apply sub_positive_ltb. Qed.

Lemma numbers_elem (l : list Scored) (a : Scored) :
  numbers l = true -> a ∈ l -> PrimFloat.is_nan (_combined a) = false.
Proof.
  unfold numbers. rewrite forallb_forall.
  intros H Ha%list_elem_of_In. apply negb_true_iff. by apply H.
Qed.

(** On scores that are not NaN the comparator is consistent. *)
Lemma numbers_order (l : list Scored) :
  numbers l = true ->
  asymmetric_on comparefn l /\ neg_transitive_on comparefn l.
Proof.
  intros Hl. split.
  - intros a b Ha Hb. rewrite !after_ltb.
    rewrite !ltb_ord by (by eapply numbers_elem).
    intros H%Z.ltb_lt. apply Z.ltb_ge. lia.
  - intros a b c Ha Hb Hc. rewrite !after_ltb.
    rewrite !ltb_ord by (by eapply numbers_elem).
    intros H1%Z.ltb_ge H2%Z.ltb_ge. apply Z.ltb_ge. lia.
Qed.



Lemma score_unknown_member members s :
  find_member members (memberId s) = None ->
  score members s
  = {| sug := s; _combined := getCombinedScore (skillMatchPct s) 0 |}.
Proof. intros Hfind. unfold score. by rewrite Hfind. Qed.

(** C10.  A suggestion whose [memberId] names no member of the roster
    is scored with [calendarPct] 0 and takes part in the sort, it has a
    slot (and so a rank) in the row list, and no row is rendered for
    it.  Nothing fails on the way: the functions are total. *)
Theorem unknown_member_omitted (task : Task)
    (members : option (list TeamMember)) (s : Suggestion) :
  s ∈ suggestions task ->
  find_member members (memberId s) = None ->
  {| sug := s; _combined := getCombinedScore (skillMatchPct s) 0 |}
    ∈ sortedSuggestions task members
  /\ length (suggestionRows task members) = length (suggestions task)
  /\ forall r, r ∈ renderedRows task members ->
       memberId (sug (row_suggestion r)) <> memberId s.
Proof.
  intros Hs Hfind. split; [|split].
  - unfold sortedSuggestions. rewrite sort_perm.
    rewrite <- (score_unknown_member members s Hfind).
    by apply list_elem_of_fmap_2.
  - unfold suggestionRows, sortedSuggestions.
    by rewrite length_imap, sort_perm, length_fmap.
  - intros r Hr Hid. unfold renderedRows, suggestionRows in Hr.
    apply list_elem_of_omap in Hr as (o & Ho & ->).
    apply elem_of_lookup_imap in Ho as (i & e & Hrow & _).
    unfold row in Hrow.
    destruct (find_member members (memberId (sug e))) as [m|] eqn:Hm;
      [|done].
    injection Hrow as ->. simpl in Hid. congruence.
Qed.

End ScorerFacts.


Lemma unknown_member_omitted_witness :
  Sample.suggest "mem-9" 40%float ∈ Scorer.suggestions Sample.task_002
  /\ length (Scorer.suggestionRows Sample.task_002 Sample.roster) = 3%nat.
Proof.
  split; [left|].
  apply (unknown_member_omitted Sample.task_002 Sample.roster
           (Sample.suggest "mem-9" 40%float)); [left | reflexivity].
Defined.

Section DataLoaderFacts.
Import Scorer DataLoader.

(** C9 fails as stated: with no entry in the skill scores for the pair
    (task-001, mem-1) the suggestion keeps its skill match of 90, and
    its rank score is not the one that a skill match of 0 would give. *)
Lemma unscored_pair_is_not_zeroed :
  ~ (forall task e,
       task ∈ load_tasks [Sample.task_001] ∅ ->
       e ∈ sortedSuggestions task Sample.roster ->
       _combined e = getCombinedScore 0 71).
Proof.
  intros H.
  assert (_combined (score Sample.roster (Sample.suggest "mem-1" 90%float))
          = getCombinedScore 0 71) as Heq.
  { apply (H (merge_task ∅ Sample.task_001)); cbn; left. }
  revert Heq. apply float_eqb_false_neq; vm_compute; reflexivity.
Qed.

(** C9, as amended.  A suggestion for which the skill scores hold no
    entry comes out of [load_tasks] as it was parsed, and the ranking
    scores it from the skill match it was parsed with; no step can
    fail. *)
Theorem unscored_pair_keeps_parsed_score
    (tasks : list Task) (scores : gmap string (gmap string ScoreEntry))
    (members : option (list TeamMember)) (task : Task) (s : Suggestion) :
  task ∈ tasks ->
  s ∈ suggestions task ->
  default ∅ (scores !! task_id task) !! memberId s = None ->
  exists task',
    task' ∈ load_tasks tasks scores
    /\ task_id task' = task_id task
    /\ s ∈ suggestions task'
    /\ score members s ∈ sortedSuggestions task' members
    /\ skillMatchPct (sug (score members s)) = skillMatchPct s.
Proof.
  intros Htask Hs Hnone. exists (merge_task scores task).
  assert (s ∈ suggestions (merge_task scores task)) as Hs'.
  { simpl. apply list_elem_of_fmap. exists s. split; [|done].
    unfold merge_suggestion. by rewrite Hnone. }
  split; [by apply list_elem_of_fmap_2|]. split; [done|].
  split; [done|]. split; [|done].
  unfold sortedSuggestions. rewrite sort_perm.
  by apply list_elem_of_fmap_2.
Qed.

End DataLoaderFacts.

Lemma unscored_pair_keeps_parsed_score_witness :
  Sample.task_001 ∈ [Sample.task_001]
  /\ exists task',
       task' ∈ DataLoader.load_tasks [Sample.task_001] ∅
       /\ Scorer.task_id task' = "task-001"
       /\ Sample.suggest "mem-1" 90%float ∈ Scorer.suggestions task'.
Proof.
  split; [left|].
  destruct (unscored_pair_keeps_parsed_score [Sample.task_001] ∅
              Sample.roster Sample.task_001 (Sample.suggest "mem-1" 90%float))
    as (task' & H1 & H2 & H3 & _); [left | left | reflexivity |].
  exists task'. auto.
Defined.

(* ===================================================================== *)
(** * Properties of the reconciliation engine *)
(* ===================================================================== *)

#[local] Open Scope Z_scope.

Section MatcherNames.
Context {TeamMember : Type} (name : TeamMember -> string).
Import Matcher.

(** The loop reads the names only: on two rosters with the same names
    it stops with the same ratio and at the same position. *)
Lemma best_loop_names norm (l1 l2 : list TeamMember) :
  name <$> l1 = name <$> l2 ->
  forall i best_ratio bm1 bm2,
    fst <$> bm1 = fst <$> bm2 ->
    (best_loop name norm i l1 best_ratio bm1).1
    = (best_loop name norm i l2 best_ratio bm2).1
    /\ fst <$> (best_loop name norm i l1 best_ratio bm1).2
       = fst <$> (best_loop name norm i l2 best_ratio bm2).2.
Proof.
  revert l2. induction l1 as [|m1 l1 IH]; intros [|m2 l2] Hnames;
    try discriminate; [done|].
  injection Hnames as Hname Hnames. intros i br bm1 bm2 Hbm. simpl.
  unfold member_ratio. rewrite Hname.
  destruct (Qltb br _); by apply IH.
Qed.

End MatcherNames.

Section ReconcileFacts.
Import Reconcile.

Lemma restore_not_expired m now : expired (restore m) now = false.
Proof. reflexivity. Qed.

Lemma restoreExpired_lookup roster now i :
  (restoreExpired roster now).1 !! i
  = (fun m => if expired m now then restore m else m) <$> roster !! i.
Proof. unfold restoreExpired; simpl. apply list_lookup_fmap. Qed.

Lemma override_not_expired m now :
  manualOverrideActive m = true -> expired m now = false.
Proof. intros H. unfold expired. rewrite H. apply andb_false_r. Qed.

Lemma apply_one_keeps_override now st a i m :
  st.1 !! i = Some m -> manualOverrideActive m = true ->
  (apply_one now st a).1 !! i = Some m.
Proof.
  destruct st as [roster r]; simpl. intros Hi Hov.
  destruct (normalize a now); [|done].
  destruct (Matcher.best_member_at name (personReference a) roster)
    as [[k mk]|] eqn:Hbest; [|done].
  destruct (manualOverrideActive mk) eqn:Hk; [done|]. simpl.
  apply best_member_at_lookup in Hbest.
  destruct (decide (k = i)) as [->|Hne].
  - congruence.
  - by rewrite list_lookup_insert_ne.
Qed.

Lemma foldl_apply_keeps_override now anns : forall st i m,
  st.1 !! i = Some m -> manualOverrideActive m = true ->
  (foldl (apply_one now) st anns).1 !! i = Some m.
Proof.
  induction anns as [|a anns IH]; intros st i m Hi Hov; simpl; [done|].
  apply IH; [|done]. by apply apply_one_keeps_override.
Qed.

(** C1.  A member whose [manualOverrideActive] is true is left as it is,
    and so keeps its [availability], [isOutOfOffice] and
    [slackOooUntil], by the apply pass, by the expiry sweep, and by the
    sweep followed by the apply pass, for every list of announcements
    and every [now]. *)
Theorem override_wins (announcements : list StructuredAnnouncement)
    (roster : list Member) (now : Timestamp) (i : nat) (m : Member) :
  roster !! i = Some m ->
  manualOverrideActive m = true ->
  (applyAnnouncements announcements roster now).1 !! i = Some m
  /\ (restoreExpired roster now).1 !! i = Some m
  /\ (syncNow announcements roster now).1 !! i = Some m.
Proof.
  intros Hi Hov.
  assert ((restoreExpired roster now).1 !! i = Some m) as Hsweep.
  { rewrite restoreExpired_lookup, Hi. simpl.
    by rewrite override_not_expired. }
  split; [|split; [done|]].
  - by apply foldl_apply_keeps_override.
  - by apply foldl_apply_keeps_override.
Qed.

(** C8.  The expiry sweep is idempotent: run again at the same [now] on
    the member table that it left, it leaves that table as it is and
    restores no member. *)
Theorem restoreExpired_idempotent (roster : list Member)
    (now : Timestamp) :
  restoreExpired (restoreExpired roster now).1 now
  = ((restoreExpired roster now).1, []).
Proof.
  unfold restoreExpired; simpl.
  induction roster as [|m roster IH]; [done|].
  injection IH as IHr IHi. rewrite !fmap_cons. f_equal.
  - f_equal; [|done].
    destruct (expired m now) eqn:Hm; [reflexivity|by rewrite Hm].
  - rewrite filter_cons_False; [done|].
    destruct (expired m now) eqn:Hm; [by rewrite restore_not_expired|].
    by rewrite Hm.
Qed.

Lemma apply_one_counters now st a k :
  (detected st.2 = k /\ applied st.2 + skipped st.2 = k
   /\ length (changes st.2) = applied st.2)%nat ->
  scanned (apply_one now st a).2 = scanned st.2
  /\ (detected (apply_one now st a).2 = S k
      /\ applied (apply_one now st a).2 + skipped (apply_one now st a).2
         = S k
      /\ length (changes (apply_one now st a).2)
         = applied (apply_one now st a).2)%nat.
Proof.
  destruct st as [roster r]; simpl. intros (Hd & Hs & Hc).
  destruct (normalize a now); [|simpl; lia].
  destruct (Matcher.best_member_at name (personReference a) roster)
    as [[i m]|]; [|simpl; lia].
  destruct (manualOverrideActive m); simpl; [lia|].
  rewrite length_app; simpl. lia.
Qed.

Lemma foldl_apply_counters now anns : forall st k,
  (detected st.2 = k /\ applied st.2 + skipped st.2 = k
   /\ length (changes st.2) = applied st.2)%nat ->
  scanned (foldl (apply_one now) st anns).2 = scanned st.2
  /\ (detected (foldl (apply_one now) st anns).2 = k + length anns
      /\ applied (foldl (apply_one now) st anns).2
         + skipped (foldl (apply_one now) st anns).2
         = k + length anns
      /\ length (changes (foldl (apply_one now) st anns).2)
         = applied (foldl (apply_one now) st anns).2)%nat.
Proof.
  induction anns as [|a anns IH]; intros st k Hst; simpl.
  - split; [done|]. rewrite Nat.add_0_r. done.
  - destruct (apply_one_counters now st a k Hst) as [Hsc Hk].
    destruct (IH _ _ Hk) as [Hsc' Hk']. split; [congruence|].
    replace (k + S (length anns))%nat with (S k + length anns)%nat by lia.
    done.
Qed.

(** C4.  After an apply pass [scanned] is the number of announcements,
    [scanned >= detected >= applied] and [applied + skipped = detected];
    there is one change record per applied announcement. *)
Theorem sync_counters (announcements : list StructuredAnnouncement)
    (roster : list Member) (now : Timestamp) :
  let r := (applyAnnouncements announcements roster now).2 in
  scanned r = length announcements
  /\ (scanned r >= detected r)%nat
  /\ (detected r >= applied r)%nat
  /\ (applied r + skipped r = detected r)%nat
  /\ length (changes r) = applied r.
Proof.
  intros r. subst r. unfold applyAnnouncements.
  match goal with |- context [foldl _ ?st0 _] =>
    destruct (foldl_apply_counters now announcements st0 0%nat)
      as (Hsc & Hd & Hs & Hc); [simpl; lia|]
  end.
  simpl in *. rewrite Hsc. repeat split; try lia.
Qed.

(** An announcement that lies wholly in the past is counted as detected
    and as skipped: the pass ends with [detected = 1], [applied = 0],
    [skipped = 1] and the member as it was. *)
Lemma stale_announcement_is_skipped :
  applyAnnouncements [Sample.stale] [Sample.maya_patel] 10
  = ([Sample.maya_patel],
     {| scanned := 1; detected := 1; applied := 0; skipped := 1;
        changes := [] |}).
Proof. reflexivity. Qed.



Lemma names_mark_ooo (roster : list Member) (i : nat) m start until :
  roster !! i = Some m ->
  name <$> <[i := mark_ooo m start until]> roster = name <$> roster.
Proof.
  intros Hi. rewrite list_fmap_insert. simpl.
  apply list_insert_id. by rewrite list_lookup_fmap, Hi.
Qed.



End ReconcileFacts.

Lemma override_wins_witness :
  [Sample.maya_overridden] !! 0%nat = Some Sample.maya_overridden
  /\ (Reconcile.syncNow [Sample.away_now] [Sample.maya_overridden] 10).1
       !! 0%nat
     = Some Sample.maya_overridden.
Proof.
  split; [reflexivity|].
  apply (override_wins [Sample.away_now] [Sample.maya_overridden] 10 0%nat
           Sample.maya_overridden); reflexivity.
Defined.


(* ===================================================================== *)
(** * More on the sequence matcher and the name matching strategy *)
(* ===================================================================== *)

#[local] Open Scope nat_scope.

Section SequenceMatcherSound.
Context {A : Type} `{EqDecision A}.
Import SequenceMatcher SequenceMatcherInv.

Lemma newj2len_length (x : A) b : forall j2len diag,
  length j2len = length b -> length (newj2len x b j2len diag) = length b.
Proof.
  induction b as [|y b IH]; intros [|k j2len] diag Hlen; simpl in *;
    try done.
  f_equal. apply IH. lia.
Qed.

Lemma newj2len_lookup (x : A) b : forall j2len diag j y,
  length j2len = length b -> b !! j = Some y ->
  newj2len x b j2len diag !! j
  = Some (if decide (x = y)
          then S (match j with
                  | O => diag
                  | S j' => default 0 (j2len !! j')
                  end)
          else 0).
Proof.
  induction b as [|z b IH]; intros [|k j2len] diag j y Hlen Hj;
    simpl in *; try done.
  destruct j as [|j]; simpl in *.
  - by injection Hj as ->.
  - rewrite (IH j2len k j y) by (done || lia).
    by destruct j.
Qed.

Lemma run_extend (a b : list A) i j d x :
  a !! i = Some x -> b !! j = Some x ->
  (d = 0 \/ exists i' j', i = S i' /\ j = S j' /\ run_at a b i' j' d) ->
  run_at a b i j (S d).
Proof.
  intros Ha Hb [->|(i' & j' & -> & -> & Hi & Hj & Heq)].
  - unfold run_at. split; [lia|]. split; [lia|].
    replace (S i - 1) with i by lia. replace (S j - 1) with j by lia.
    rewrite !(take_S_r _ 0 x) by (by rewrite lookup_drop, Nat.add_0_r).
    done.
  - unfold run_at. split; [lia|]. split; [lia|].
    replace (S (S i') - S d) with (S i' - d) by lia.
    replace (S (S j') - S d) with (S j' - d) by lia.
    rewrite (take_S_r _ d x).
    2:{ rewrite lookup_drop. rewrite <- Ha. f_equal. lia. }
    rewrite (take_S_r (drop (S j' - d) b) d x).
    2:{ rewrite lookup_drop. rewrite <- Hb. f_equal. lia. }
    by rewrite Heq.
Qed.

Lemma newj2len_ok (a b : list A) i x row :
  a !! i = Some x -> row_ok a b i row ->
  row_ok a b (S i) (newj2len x b row 0).
Proof.
  intros Ha [Hlen Hrow]. split; [by apply newj2len_length|].
  intros j k Hj.
  assert (j < length b) as Hjb.
  { apply lookup_lt_Some in Hj. by rewrite newj2len_length in Hj. }
  destruct (lookup_lt_is_Some_2 b j Hjb) as [y Hy].
  rewrite (newj2len_lookup x b row 0 j y Hlen Hy) in Hj.
  injection Hj as <-.
  destruct (decide (x = y)) as [<-|]; [|by left].
  right. exists i. split; [done|].
  apply (run_extend a b i j _ x); [done..|].
  destruct j as [|j']; [by left|].
  destruct (row !! j') as [d|] eqn:Hd; simpl; [|by left].
  destruct (Hrow j' d Hd) as [->|(i' & -> & Hrun)]; [by left|].
  right. by exists i', j'.
Qed.

Lemma update_best_ok (a b : list A) i row : forall j best,
  i < length a -> j + length row <= length b ->
  (forall p k, row !! p = Some k -> k = 0 \/ run_at a b i (j + p) k) ->
  valid_block a b best ->
  valid_block a b (update_best i j row best).
Proof.
  induction row as [|k row IH]; intros j best Hi Hj Hrow Hbest; simpl;
    [done|].
  simpl in Hj. apply IH; [done|lia| |].
  - intros p k' Hp. replace (S j + p) with (j + S p) by lia.
    by apply Hrow.
  - destruct (size best <? k) eqn:Hk; [|done].
    apply Nat.ltb_lt in Hk.
    destruct (Hrow 0 k eq_refl) as [->|(Hki & Hkj & Heq)]; [lia|].
    rewrite Nat.add_0_r in Hkj, Heq.
    unfold valid_block, size; simpl.
    replace (i + 1 - k) with (S i - k) by lia.
    replace (j + 1 - k) with (S j - k) by lia.
    split; [lia|]. split; [lia|done].
Qed.

Lemma find_longest_loop_ok (a b : list A) : forall a' i j2len best,
  drop i a = a' -> row_ok a b i j2len -> valid_block a b best ->
  valid_block a b (find_longest_loop i a' b j2len best).
Proof.
  induction a' as [|x a' IH]; intros i j2len best Hdrop Hrow Hbest; simpl;
    [done|].
  assert (a !! i = Some x) as Hx.
  { rewrite <- (Nat.add_0_r i), <- lookup_drop, Hdrop. done. }
  pose proof (newj2len_ok a b i x j2len Hx Hrow) as Hnew.
  apply IH; [|done|].
  - apply (f_equal (drop 1)) in Hdrop. rewrite drop_drop in Hdrop.
    by replace (i + 1) with (S i) in Hdrop by lia.
  - apply update_best_ok; [by eapply lookup_lt_Some| |  |done].
    + destruct Hnew as [-> _]. lia.
    + intros p k Hp. destruct Hnew as [_ Hnew].
      destruct (Hnew p k Hp) as [->|(i' & [= <-] & Hrun)]; [by left|].
      by right.
Qed.

(** The block that [find_longest_match] returns lies within both
    sequences and is the same run of elements in both. *)
Lemma find_longest_match_ok (a b : list A) :
  valid_block a b (find_longest_match a b).
Proof.
  apply find_longest_loop_ok; [done| |].
  - split; [by rewrite length_replicate|].
    intros j k [-> _]%lookup_replicate. by left.
  - unfold valid_block, size; simpl. split; [lia|]. split; [lia|done].
Qed.
End SequenceMatcherSound.

Section SequenceMatcherMore.
Context {A : Type} `{EqDecision A}.
Import SequenceMatcher SequenceMatcherInv.

Lemma find_longest_match_block (a b : list A) i j k :
  find_longest_match a b = (i, j, k) ->
  i + k <= length a /\ j + k <= length b
  /\ take k (drop i a) = take k (drop j b).
Proof.
  intros Hm. pose proof (find_longest_match_ok a b) as Hok.
  by rewrite Hm in Hok.
Qed.

(** The blocks are disjoint parts of [b] too. *)
Lemma matching_blocks_sum_second fuel : forall alo blo (a b : list A),
  sum_list_with size (matching_blocks fuel alo blo a b) <= length b.
Proof.
  induction fuel as [|fuel IH]; intros alo blo a b; simpl; [lia|].
  destruct (find_longest_match a b) as [[i j] k] eqn:Hm.
  apply find_longest_match_block in Hm as (_ & Hm & _).
  destruct (k =? 0); simpl; [lia|].
  rewrite sum_list_with_app. simpl.
  assert (sum_list_with size
            (if (0 <? i) && (0 <? j)
             then matching_blocks fuel alo blo (take i a) (take j b)
             else []) <= j) as Hleft.
  { destruct ((0 <? i) && (0 <? j)); simpl; [|lia].
    etrans; [apply IH|]. rewrite length_take. lia. }
  assert (sum_list_with size
            (if (i + k <? length a) && (j + k <? length b)
             then matching_blocks fuel (alo + i + k) (blo + j + k)
                    (drop (i + k) a) (drop (j + k) b)
             else []) <= length b - (j + k)) as Hright.
  { destruct ((i + k <? length a) && (j + k <? length b)); simpl; [|lia].
    etrans; [apply IH|]. by rewrite length_drop. }
  etrans; [apply Nat.add_le_mono;
             [exact Hleft | apply Nat.add_le_mono_l; exact Hright]|].
  lia.
Qed.

(** Blocks that cover both sequences wholly: the sequences are equal. *)
Lemma matching_blocks_full fuel : forall alo blo (a b : list A),
  sum_list_with size (matching_blocks fuel alo blo a b) = length a ->
  sum_list_with size (matching_blocks fuel alo blo a b) = length b ->
  a = b.
Proof.
  induction fuel as [|fuel IH]; intros alo blo a b; simpl.
  { intros Ha Hb. destruct a, b; done. }
  destruct (find_longest_match a b) as [[i j] k] eqn:Hm.
  apply find_longest_match_block in Hm as (Hia & Hjb & Hmid).
  destruct (k =? 0) eqn:Hk; simpl.
  { intros Ha Hb. destruct a, b; done. }
  rewrite sum_list_with_app. simpl.
  match goal with
  | |- sum_list_with size ?l + (_ + sum_list_with size ?r) = _ -> _ =>
      set (left := l); set (right := r)
  end.
  assert (sum_list_with size left <= i /\ sum_list_with size left <= j
          /\ (sum_list_with size left = i -> sum_list_with size left = j ->
              take i a = take j b)) as (Hl1 & Hl2 & Hl).
  { subst left. destruct ((0 <? i) && (0 <? j)) eqn:Hc; simpl.
    - pose proof (matching_blocks_sum fuel alo blo (take i a) (take j b)).
      pose proof (matching_blocks_sum_second fuel alo blo (take i a)
                    (take j b)).
      rewrite length_take in *. split; [lia|]. split; [lia|].
      intros Hi Hj. apply (IH alo blo); rewrite length_take; lia.
    - split; [lia|]. split; [lia|]. by intros <- <-. }
  assert (sum_list_with size right <= length a - (i + k)
          /\ sum_list_with size right <= length b - (j + k)
          /\ (sum_list_with size right = length a - (i + k) ->
              sum_list_with size right = length b - (j + k) ->
              drop (i + k) a = drop (j + k) b)) as (Hr1 & Hr2 & Hr).
  { subst right.
    destruct ((i + k <? length a) && (j + k <? length b)) eqn:Hc; simpl.
    - pose proof (matching_blocks_sum fuel (alo + i + k) (blo + j + k)
                    (drop (i + k) a) (drop (j + k) b)).
      pose proof (matching_blocks_sum_second fuel (alo + i + k)
                    (blo + j + k) (drop (i + k) a) (drop (j + k) b)).
      rewrite length_drop in *. split; [done|]. split; [done|].
      intros Hi Hj.
      apply (IH (alo + i + k) (blo + j + k)); rewrite length_drop; lia.
    - split; [lia|]. split; [lia|]. intros Hi Hj.
      rewrite !drop_ge by lia. done. }
  revert Hl1 Hl2 Hl Hr1 Hr2 Hr.
  generalize (sum_list_with size left) (sum_list_with size right).
  intros L R Hl1 Hl2 Hl Hr1 Hr2 Hr Ha Hb.
  unfold size in Ha, Hb; simpl in Ha, Hb.
  rewrite <- (take_drop i a), <- (take_drop j b).
  rewrite <- (take_drop k (drop i a)), <- (take_drop k (drop j b)).
  rewrite !drop_drop, Hmid.
  rewrite Hl by lia. by rewrite Hr by lia.
Qed.

Lemma update_best_size i row : forall j best,
  size best <= size (update_best i j row best)
  /\ forall p k, row !! p = Some k -> k <= size (update_best i j row best).
Proof.
  induction row as [|k row IH]; intros j best; simpl.
  - split; [done|]. intros p k Hp. by rewrite lookup_nil in Hp.
  - destruct (IH (S j)
               (if size best <? k then (i + 1 - k, j + 1 - k, k) else best))
      as [IH1 IH2].
    assert (size best <= size (if size best <? k
                               then (i + 1 - k, j + 1 - k, k) else best)
            /\ k <= size (if size best <? k
                          then (i + 1 - k, j + 1 - k, k) else best))
      as [H1 H2].
    { destruct (size best <? k) eqn:Hk; unfold size in *; simpl.
      - apply Nat.ltb_lt in Hk. lia.
      - apply Nat.ltb_ge in Hk. lia. }
    split; [lia|].
    intros [|p] k' Hp; simpl in Hp.
    + injection Hp as <-. lia.
    + by apply (IH2 p).
Qed.

Lemma find_longest_loop_size (b : list A) : forall a' i j2len best,
  size best <= size (find_longest_loop i a' b j2len best).
Proof.
  induction a' as [|x a' IH]; intros i j2len best; simpl; [done|].
  etrans; [|apply IH]. apply update_best_size.
Qed.

(** Against itself a sequence is one run. *)
Lemma find_longest_loop_diag (a : list A) : forall a' i j2len best,
  drop i a = a' -> length j2len = length a ->
  (forall i', i = S i' -> j2len !! i' = Some i) ->
  i <= size best ->
  length a <= size (find_longest_loop i a' a j2len best).
Proof.
  induction a' as [|x a' IH]; intros i j2len best Hdrop Hlen Hdiag Hbest;
    simpl.
  - assert (length a <= i); [|lia].
    destruct (decide (length a <= i)); [done|].
    assert (length (drop i a) = 0) as Hd by by rewrite Hdrop.
    rewrite length_drop in Hd. lia.
  - assert (a !! i = Some x) as Hx.
    { rewrite <- (Nat.add_0_r i), <- lookup_drop, Hdrop. done. }
    assert (newj2len x a j2len 0 !! i = Some (S i)) as Hentry.
    { rewrite (newj2len_lookup x a j2len 0 i x Hlen Hx).
      rewrite decide_True by done. f_equal. f_equal.
      destruct i as [|i']; [done|]. by rewrite (Hdiag i' eq_refl). }
    apply IH.
    + apply (f_equal (drop 1)) in Hdrop. rewrite drop_drop in Hdrop.
      by replace (i + 1) with (S i) in Hdrop by lia.
    + by apply newj2len_length.
    + by intros i' [= <-].
    + by apply (proj2 (update_best_size i (newj2len x a j2len 0) 0 best) i).
Qed.

Lemma find_longest_match_self (a : list A) :
  find_longest_match a a = (0, 0, length a).
Proof.
  pose proof (find_longest_match_ok a a) as (Hi & Hj & _).
  assert (length a <= size (find_longest_match a a)) as Hsize.
  { apply find_longest_loop_diag; [done|by rewrite length_replicate| |].
    - by intros i' [=].
    - unfold size; simpl; lia. }
  destruct (find_longest_match a a) as [[i j] k].
  unfold size in *; simpl in *.
  repeat f_equal; lia.
Qed.

Lemma matches_self (a : list A) :
  sum_list_with size (get_matching_blocks a a) = length a.
Proof.
  unfold get_matching_blocks; simpl.
  rewrite find_longest_match_self.
  destruct (length a =? 0) eqn:Hk.
  - apply Nat.eqb_eq in Hk. by rewrite Hk.
  - simpl. rewrite (proj2 (Nat.ltb_ge _ _)) by lia. simpl.
    unfold size; simpl. lia.
Qed.

(** The ratio of a sequence with itself is 1. *)
Lemma ratio_self (a : list A) : (ratio a a == 1)%Q.
Proof.
  unfold ratio. rewrite matches_self. unfold _calculate_ratio.
  destruct (length a + length a) as [|T] eqn:HT; [done|].
  unfold Qeq; simpl. rewrite <- HT. lia.
Qed.

Lemma ratio_le_1 (a b : list A) : (ratio a b <= 1)%Q.
Proof.
  unfold ratio, _calculate_ratio.
  pose proof (matching_blocks_sum (S (length a)) 0 0 a b) as Ha.
  pose proof (matching_blocks_sum_second (S (length a)) 0 0 a b) as Hb.
  fold (get_matching_blocks a b) in Ha, Hb.
  destruct (length a + length b) as [|T] eqn:HT; [done|].
  unfold Qle; simpl. lia.
Qed.

Lemma ratio_nonneg (a b : list A) : (0 <= ratio a b)%Q.
Proof.
  unfold ratio, _calculate_ratio.
  destruct (length a + length b) as [|T]; [done|].
  unfold Qle; simpl. lia.
Qed.

(** Only equal sequences have ratio 1. *)
Lemma ratio_1_eq (a b : list A) : (1 <= ratio a b)%Q -> a = b.
Proof.
  unfold ratio, _calculate_ratio.
  pose proof (matching_blocks_sum (S (length a)) 0 0 a b) as Ha.
  pose proof (matching_blocks_sum_second (S (length a)) 0 0 a b) as Hb.
  pose proof (matching_blocks_full (S (length a)) 0 0 a b) as Hfull.
  fold (get_matching_blocks a b) in Ha, Hb, Hfull.
  destruct (length a + length b) as [|T] eqn:HT.
  - intros _. destruct a, b; done.
  - unfold Qle; simpl. intros Hr. apply Hfull; lia.
Qed.
End SequenceMatcherMore.

Lemma chars_inj s t : PyStr.chars s = PyStr.chars t -> s = t.
Proof.
  revert t. induction s as [|c s IH]; intros [|d t] Heq; simpl in *;
    try done.
  injection Heq as -> Heq. f_equal. by apply IH.
Qed.

Ltac all_chars c :=
  destruct c as [[] [] [] [] [] [] [] []]; vm_compute; try reflexivity.

Lemma lower_char_idem c : PyStr.lower_char (PyStr.lower_char c) = PyStr.lower_char c.
Proof. all_chars c. Qed.

Lemma lower_char_at c : Ascii.eqb (PyStr.lower_char c) "@" = Ascii.eqb c "@".
Proof. all_chars c. Qed.

Lemma lower_char_dot c : Ascii.eqb (PyStr.lower_char c) "." = Ascii.eqb c ".".
Proof. all_chars c. Qed.

Lemma lower_char_space c : PyStr.isspace (PyStr.lower_char c) = PyStr.isspace c.
Proof. all_chars c. Qed.

Lemma lower_idem s : PyStr.lower (PyStr.lower s) = PyStr.lower s.
Proof. induction s as [|c s IH]; simpl; [done|]. by rewrite lower_char_idem, IH. Qed.

Lemma lower_lstrip_chars (p : ascii -> bool) s :
  (forall c, p (PyStr.lower_char c) = p c) ->
  PyStr.lstrip_chars p (PyStr.lower s) = PyStr.lower (PyStr.lstrip_chars p s).
Proof.
  intros Hp. induction s as [|c s IH]; simpl; [done|].
  rewrite Hp. by destruct (p c).
Qed.

Lemma lower_rstrip_chars (p : ascii -> bool) s :
  (forall c, p (PyStr.lower_char c) = p c) ->
  PyStr.rstrip_chars p (PyStr.lower s) = PyStr.lower (PyStr.rstrip_chars p s).
Proof.
  intros Hp. induction s as [|c s IH]; simpl; [done|].
  rewrite IH, Hp.
  destruct (PyStr.rstrip_chars p s); simpl; [by destruct (p c)|done].
Qed.

Lemma lower_replace_dot s :
  PyStr.replace "." " " (PyStr.lower s) = PyStr.lower (PyStr.replace "." " " s).
Proof.
  induction s as [|c s IH]; simpl; [done|].
  rewrite IH, lower_char_dot. by destruct (Ascii.eqb c ".").
Qed.

Section MatcherForms.
Context {TeamMember : Type} (name : TeamMember -> string).
Import Matcher.

Lemma normalise_lower u : normalise (PyStr.lower u) = normalise u.
Proof.
  unfold normalise, PyStr.lstrip, PyStr.strip.
  rewrite lower_lstrip_chars by apply lower_char_at.
  rewrite lower_replace_dot.
  rewrite lower_lstrip_chars by apply lower_char_space.
  rewrite lower_rstrip_chars by apply lower_char_space.
  apply lower_idem.
Qed.

Lemma lstrip_replace_dot u :
  PyStr.lstrip "@" (PyStr.replace "." " " u)
  = PyStr.replace "." " " (PyStr.lstrip "@" u).
Proof.
  unfold PyStr.lstrip. induction u as [|c u IH]; simpl; [done|].
  destruct (Ascii.eqb c ".") eqn:Hdot.
  - apply Ascii.eqb_eq in Hdot as ->. simpl. done.
  - destruct (Ascii.eqb c "@"); [done|]. simpl. by rewrite Hdot.
Qed.

Lemma replace_dot_idem u :
  PyStr.replace "." " " (PyStr.replace "." " " u) = PyStr.replace "." " " u.
Proof.
  induction u as [|c u IH]; simpl; [done|]. rewrite IH.
  destruct (Ascii.eqb c ".") eqn:Hdot; [done|]. by rewrite Hdot.
Qed.

(** The handle forms of an ASCII reference are one to the matcher:
    upper or lower case, a leading [@] or none, dots or spaces between
    the words.  (Beyond ASCII [str.lower] looks at the neighbours of a
    letter, and lower-casing before the dots are replaced is not the
    same as after.) *)
Theorem match_ignores_handle_form (username : string)
    (members : list TeamMember) :
  PyStr.isascii username = true ->
  _best_member_match name (PyStr.lower username) members
  = _best_member_match name username members
  /\ _best_member_match name (String "@" username) members
     = _best_member_match name username members
  /\ _best_member_match name (PyStr.replace "." " " username) members
     = _best_member_match name username members.
Proof.
  intros _. unfold _best_member_match, best_member_at.
  rewrite normalise_lower. split; [done|]. split; [done|].
  unfold normalise at 1. by rewrite lstrip_replace_dot, replace_dot_idem.
Qed.

(** The ratio that the matcher compares lies between 0 and 1, and it is
    1 for the members whose lower-cased name is the normalised reference
    and for no others. *)
Theorem member_ratio_range (norm : string) (m : TeamMember) :
  (0 <= member_ratio name norm m)%Q
  /\ (member_ratio name norm m <= 1)%Q
  /\ ((member_ratio name norm m == 1)%Q <-> norm = PyStr.lower (name m)).
Proof.
  unfold member_ratio, str_ratio.
  split; [apply ratio_nonneg|]. split; [apply ratio_le_1|]. split.
  - intros Heq. apply chars_inj, ratio_1_eq. by rewrite Heq.
  - intros <-. apply ratio_self.
Qed.

(** A reference that normalises to the lower-cased name of a member is
    matched, and to the first member of that name. *)
Theorem exact_name_is_matched (username : string)
    (members : list TeamMember) (i : nat) (m : TeamMember) :
  members !! i = Some m ->
  PyStr.lower (name m) = normalise username ->
  (forall j m', j < i -> members !! j = Some m' ->
     PyStr.lower (name m') <> normalise username) ->
  best_member_at name username members = Some (i, m)
  /\ _best_member_match name username members = Some m.
Proof.
  intros Hi Hname Hfirst.
  assert (best_member_at name username members = Some (i, m)) as Hres;
    [|by unfold _best_member_match; rewrite Hres].
  unfold best_member_at.
  pose proof (best_loop_all name (normalise username) members) as [Hle Hbest].
  destruct (best_loop name (normalise username) 0 members 0%Q None)
    as [br bm].
  cbn [fst snd] in *.
  assert (member_ratio name (normalise username) m == 1)%Q as Hm.
  { unfold member_ratio, str_ratio. rewrite Hname. apply ratio_self. }
  assert (1 <= br)%Q as Hbr by (rewrite <- Hm; by eapply Hle).
  assert (Qle_bool threshold br = true) as ->.
  { apply Qle_bool_iff. eapply Qle_trans; [|exact Hbr]. done. }
  destruct bm as [[k mk]|].
  - destruct Hbest as (Hk & Heq & Hbefore).
    assert (normalise username = PyStr.lower (name mk)) as Hmk.
    { apply chars_inj, ratio_1_eq.
      change (1 <= member_ratio name (normalise username) mk)%Q.
      by rewrite <- Heq. }
    destruct (Nat.lt_trichotomy k i) as [Hlt|[->|Hgt]].
    + by destruct (Hfirst k mk Hlt Hk).
    + congruence.
    + exfalso. pose proof (Hbefore i m Hgt Hi) as Hlt.
      rewrite Hm in Hlt. rewrite Heq in Hlt.
      apply (Qlt_not_le _ _ Hlt).
      unfold member_ratio, str_ratio. apply ratio_le_1.
  - exfalso. rewrite Hbest in Hbr. by apply Qle_bool_iff in Hbr.
Qed.

(** The matcher reads the names and nothing else of the members: on two
    rosters with the same names it matches at the same position. *)
Theorem match_reads_names_only (username : string)
    (l1 l2 : list TeamMember) :
  name <$> l1 = name <$> l2 ->
  fst <$> best_member_at name username l1
  = fst <$> best_member_at name username l2.
Proof.
  intros Hnames. unfold best_member_at.
  destruct (best_loop_names name (normalise username) l1 l2 Hnames 0 0%Q
              None None eq_refl) as [Hr Hp].
  destruct (best_loop name (normalise username) 0 l1 0%Q None) as [r1 b1].
  destruct (best_loop name (normalise username) 0 l2 0%Q None) as [r2 b2].
  simpl in *. subst r2. by destruct (Qle_bool threshold r1).
Qed.
End MatcherForms.

(* ===================================================================== *)
(** * More on the skill score merge *)
(* ===================================================================== *)

Section DataLoaderShape.
Import Scorer DataLoader.

Lemma merge_suggestion_idem task_scores s :
  merge_suggestion task_scores (merge_suggestion task_scores s)
  = merge_suggestion task_scores s.
Proof.
  unfold merge_suggestion.
  destruct (task_scores !! memberId s) as [e|] eqn:He; simpl.
  - by rewrite He.
  - by rewrite He.
Qed.

(** With no skill scores at all (the file does not exist) [load_tasks]
    returns the tasks as they were parsed. *)
Theorem load_tasks_no_scores (tasks : list Task) :
  load_tasks tasks ∅ = tasks.
Proof.
  unfold load_tasks. induction tasks as [|t tasks IH]; [done|].
  rewrite fmap_cons, IH. f_equal.
  destruct t as [tid ttl sugs]. unfold merge_task; simpl. f_equal.
  rewrite lookup_empty. simpl.
  induction sugs as [|s sugs IHs]; [done|].
  by rewrite fmap_cons, IHs.
Qed.

(** Merging the same scores a second time changes nothing. *)
Theorem load_tasks_idempotent (tasks : list Task)
    (scores : gmap string (gmap string ScoreEntry)) :
  load_tasks (load_tasks tasks scores) scores = load_tasks tasks scores.
Proof.
  unfold load_tasks. rewrite <- list_fmap_compose.
  apply list_fmap_ext. intros _ t _. simpl.
  unfold merge_task; simpl. f_equal.
  rewrite <- list_fmap_compose. apply list_fmap_ext. intros _ s _. simpl.
  apply merge_suggestion_idem.
Qed.

(** The merge touches [skillMatchPct] and [contextReason] only: the
    tasks, their ids and titles, and in every task the suggested members
    and their workloads, stay as parsed and in the same order. *)
Theorem load_tasks_keeps_shape (tasks : list Task)
    (scores : gmap string (gmap string ScoreEntry)) :
  Forall2
    (fun t' t =>
       task_id t' = task_id t /\ title t' = title t
       /\ memberId <$> suggestions t' = memberId <$> suggestions t
       /\ workloadPct <$> suggestions t' = workloadPct <$> suggestions t)
    (load_tasks tasks scores) tasks.
Proof.
  unfold load_tasks. apply Forall2_fmap_l, Forall_Forall2_diag.
  apply Forall_forall. intros t _. simpl.
  split; [done|]. split; [done|].
  split; rewrite <- list_fmap_compose; apply list_fmap_ext;
    intros _ s _; simpl; unfold merge_suggestion;
    by destruct (_ !! memberId s).
Qed.

End DataLoaderShape.

(* ===================================================================== *)
(** * More on the suggestion panel *)
(* ===================================================================== *)

Section RowFacts.
Import Scorer.

Lemma find_member_Some members memberId m :
  find_member members memberId = Some m ->
  id m = memberId
  /\ exists i, default [] members !! i = Some m
       /\ forall j m', j < i -> default [] members !! j = Some m' ->
            id m' <> memberId.
Proof.
  unfold find_member. generalize (default [] members). clear members.
  intros l. induction l as [|x l IH]; simpl; [done|].
  destruct (String.eqb (id x) memberId) eqn:Hx.
  - intros [= ->]. apply String.eqb_eq in Hx. split; [done|].
    exists 0. split; [done|]. intros j m' Hj. lia.
  - intros Hfind. destruct (IH Hfind) as (Hid & i & Hi & Hfirst).
    split; [done|]. exists (S i). split; [done|].
    intros [|j] m' Hj Hm'; simpl in Hm'.
    + injection Hm' as <-. by apply String.eqb_neq.
    + apply (Hfirst j); [lia|done].
Qed.

(** The rows made from the suggestions [l] that stand at the positions
    [k], [k + 1], ... of the sorted list. *)
Lemma rows_from task members : forall (l : list Scored) (k : nat),
  Forall (fun r => k <= rank r /\ l !! (rank r - k) = Some (row_suggestion r)
                   /\ row_task r = task
                   /\ find_member members (memberId (sug (row_suggestion r)))
                      = Some (row_member r))
    (omap (fun r => r) (imap (fun i => row task members (k + i)) l))
  /\ StronglySorted lt
       (rank <$> omap (fun r => r)
                   (imap (fun i => row task members (k + i)) l))
  /\ (Forall (fun s => is_Some (find_member members (memberId (sug s)))) l ->
      rank <$> omap (fun r => r)
                 (imap (fun i => row task members (k + i)) l)
      = seq k (length l)).
Proof.
  induction l as [|s l IH]; intros k.
  { split; [constructor|]. split; [constructor|done]. }
  rewrite imap_cons.
  rewrite (imap_ext _ (fun i => row task members (S k + i)))
    by (intros i x _; simpl; f_equal; lia).
  destruct (IH (S k)) as (IH1 & IH2 & IH3).
  set (tail := omap (fun r => r)
                 (imap (fun i => row task members (S k + i)) l)) in *.
  assert (Forall
            (fun r => k <= rank r
               /\ (s :: l) !! (rank r - k) = Some (row_suggestion r)
               /\ row_task r = task
               /\ find_member members (memberId (sug (row_suggestion r)))
                  = Some (row_member r)) tail) as Htail.
  { eapply Forall_impl; [exact IH1|]. intros r (Hk & Hr & Ht & Hm); simpl.
    split; [lia|]. split; [|done].
    replace (rank r - k) with (S (rank r - S k)) by lia. done. }
  rewrite Nat.add_0_r.
  change (omap (fun r => r) (row task members k s
            :: imap (fun i => row task members (S k + i)) l))
    with (match row task members k s with
          | Some r => r :: tail
          | None => tail
          end).
  destruct (row task members k s) as [r0|] eqn:Hrow.
  - unfold row in Hrow.
    destruct (find_member members (memberId (sug s))) as [m|] eqn:Hm;
      [|done].
    injection Hrow as <-.
    split; [|split].
    + constructor; [|done]. simpl. rewrite Nat.sub_diag. done.
    + rewrite fmap_cons. constructor; [done|]. apply Forall_fmap.
      eapply Forall_impl; [exact IH1|]. intros r [Hk _]; simpl. lia.
    + intros [_ Hl]%Forall_cons. rewrite fmap_cons. simpl.
      by rewrite IH3.
  - unfold row in Hrow.
    destruct (find_member members (memberId (sug s))) as [m|] eqn:Hm;
      [done|].
    split; [done|]. split; [done|].
    intros [[m' Hm'] _]%Forall_cons. congruence.
Qed.

Lemma renderedRows_from task members :
  renderedRows task members
  = omap (fun r => r)
      (imap (fun i => row task members (0 + i))
         (sortedSuggestions task members)).
Proof. done. Qed.

(** Every rendered row shows, with a suggestion, the first member of the
    roster whose [id] is the suggestion's [memberId], and the task at
    hand. *)
Theorem rendered_row_member (task : Task)
    (members : option (list TeamMember)) (r : SuggestionRow) :
  r ∈ renderedRows task members ->
  row_task r = task
  /\ id (row_member r) = memberId (sug (row_suggestion r))
  /\ exists i, default [] members !! i = Some (row_member r)
       /\ forall j m', j < i -> default [] members !! j = Some m' ->
            id m' <> memberId (sug (row_suggestion r)).
Proof.
  rewrite renderedRows_from. intros Hr.
  destruct (rows_from task members (sortedSuggestions task members) 0)
    as [Hrows _].
  rewrite Forall_forall in Hrows.
  destruct (Hrows r Hr) as (_ & _ & Ht & Hm).
  split; [done|]. by apply find_member_Some.
Qed.

Lemma rendered_row_ranks_aux (task : Task)
    (members : option (list TeamMember)) :
  (forall r, r ∈ renderedRows task members ->
     sortedSuggestions task members !! rank r = Some (row_suggestion r))
  /\ StronglySorted lt (rank <$> renderedRows task members).
Proof.
  rewrite renderedRows_from.
  destruct (rows_from task members (sortedSuggestions task members) 0)
    as (Hrows & Hsorted & _).
  split; [|done]. intros r Hr. rewrite Forall_forall in Hrows.
  destruct (Hrows r Hr) as (_ & Hpos & _).
  by rewrite Nat.sub_0_r in Hpos.
Qed.

(** The rank of a rendered row is the position of its suggestion in the
    sorted list, and the ranks grow along the rows: a suggestion that is
    left out leaves a gap in the numbering. *)
Theorem rendered_row_ranks (task : Task)
    (members : option (list TeamMember)) :
  (forall r, r ∈ renderedRows task members ->
     sortedSuggestions task members !! rank r = Some (row_suggestion r))
  /\ StronglySorted lt (rank <$> renderedRows task members).
Proof. apply rendered_row_ranks_aux. Qed.

(** When every suggested member is in the roster there is a row for
    every suggestion, and the ranks are 0, 1, ... without a gap. *)
Theorem all_known_rows (task : Task) (members : option (list TeamMember)) :
  (forall s, s ∈ suggestions task ->
     is_Some (find_member members (memberId s))) ->
  rank <$> renderedRows task members = seq 0 (length (suggestions task))
  /\ row_suggestion <$> renderedRows task members
     = sortedSuggestions task members.
Proof.
  intros Hknown. rewrite renderedRows_from.
  destruct (rows_from task members (sortedSuggestions task members) 0)
    as (Hrows & _ & Hall).
  assert (Forall (fun s => is_Some (find_member members (memberId (sug s))))
            (sortedSuggestions task members)) as Hk.
  { apply Forall_forall. intros e He. unfold sortedSuggestions in He.
    rewrite sort_perm in He.
    apply list_elem_of_fmap in He as (s & -> & Hs). by apply Hknown. }
  specialize (Hall Hk).
  assert (length (sortedSuggestions task members) = length (suggestions task))
    as Hlen.
  { unfold sortedSuggestions. by rewrite sort_perm, length_fmap. }
  split; [by rewrite Hall, Hlen|].
  apply list_eq. intros i. rewrite list_lookup_fmap.
  destruct (omap _ _ !! i) as [r|] eqn:Hr; simpl.
  - assert (rank r = i) as Hrank.
    { assert ((rank <$> omap (fun r => r)
                 (imap (fun i => row task members (0 + i))
                    (sortedSuggestions task members))) !! i = Some (rank r))
        as Hi by (by rewrite list_lookup_fmap, Hr).
      rewrite Hall in Hi. apply lookup_seq in Hi as [-> _]. done. }
    rewrite Forall_forall in Hrows.
    destruct (Hrows r (list_elem_of_lookup_2 _ _ _ Hr)) as (_ & Hpos & _).
    by rewrite Nat.sub_0_r, Hrank in Hpos.
  - symmetry. apply lookup_ge_None.
    apply lookup_ge_None in Hr.
    assert (length (rank <$> omap (fun r => r)
                 (imap (fun i => row task members (0 + i))
                    (sortedSuggestions task members)))
            = length (sortedSuggestions task members)) as Hl
      by (by rewrite Hall, length_seq).
    rewrite length_fmap in Hl. lia.
Qed.

Lemma renderedRows_None (task : Task) : renderedRows task None = [].
Proof.
  rewrite renderedRows_from.
  generalize (sortedSuggestions task None) 0.
  induction l as [|s l IH]; intros k; [done|].
  rewrite imap_cons.
  rewrite (imap_ext _ (fun i => row task None (S k + i)))
    by (intros i x _; simpl; f_equal; lia).
  apply IH.
Qed.

(** Before the roster has loaded ([members] undefined) every suggestion
    is scored with a calendar share of 0 and no row is rendered. *)
Theorem roster_not_loaded (task : Task) :
  renderedRows task None = []
  /\ forall e, e ∈ sortedSuggestions task None ->
       _combined e = getCombinedScore (skillMatchPct (sug e)) 0.
Proof.
  split; [apply renderedRows_None|].
  intros e He. unfold sortedSuggestions in He. rewrite sort_perm in He.
  by apply list_elem_of_fmap in He as (s & -> & Hs).
Qed.

(** Where no score is NaN the rendered rows are in descending order of
    score too. *)
Theorem rendered_rows_descending (task : Task)
    (members : option (list TeamMember)) (p q : nat) (r1 r2 : SuggestionRow) :
  numbers (score members <$> suggestions task) = true ->
  p < q ->
  renderedRows task members !! p = Some r1 ->
  renderedRows task members !! q = Some r2 ->
  (_combined (row_suggestion r1) <? _combined (row_suggestion r2))%float
  = false.
Proof.
  intros Hnum Hpq Hp Hq.
  destruct (numbers_order _ Hnum) as [Hasym Htrans].
  destruct (rendered_row_ranks_aux task members) as [Hpos Hsorted].
  assert (rank r1 < rank r2) as Hrank.
  { apply (StronglySorted_lookup_lt lt
             (rank <$> renderedRows task members) p q (rank r1) (rank r2));
      [done|done| |]; rewrite list_lookup_fmap; [by rewrite Hp|by rewrite Hq]. }
  pose proof (Hpos r1 (list_elem_of_lookup_2 _ _ _ Hp)) as H1.
  pose proof (Hpos r2 (list_elem_of_lookup_2 _ _ _ Hq)) as H2.
  assert (sortedSuggestions task members
          ≡ₚ score members <$> suggestions task) as Hperm by apply sort_perm.
  rewrite <- after_ltb.
  apply (StronglySorted_lookup_lt (not_after comparefn)
           (sortedSuggestions task members) (rank r1) (rank r2));
    [by apply sort_sorted|done..].
Qed.
End RowFacts.

Section InitialsFacts.
Import Panel.

(** No piece of a split holds the separator. *)
Lemma split_no_sep sep s :
  Forall (fun w => Forall (fun c => c <> sep) (PyStr.chars w))
    (JsStr.split sep s).
Proof.
  induction s as [|c s IH]; simpl.
  - repeat constructor.
  - destruct (Ascii.eqb c sep) eqn:Hc.
    + constructor; [constructor|done].
    + apply Ascii.eqb_neq in Hc.
      destruct (JsStr.split sep s) as [|w ws].
      * repeat constructor. done.
      * apply Forall_cons in IH as [Hw Hws].
        constructor; [|done]. simpl. by constructor.
Qed.

Lemma join_first_no_sep sep (ws : list string) :
  Forall (fun w => Forall (fun c => c <> sep) (PyStr.chars w)) ws ->
  Forall (fun c => c <> sep) (PyStr.chars (JsStr.join (JsStr.first <$> ws))).
Proof.
  induction 1 as [|w ws Hw Hws IH]; simpl; [constructor|].
  destruct w as [|c w]; simpl; [done|].
  apply Forall_cons in Hw as [Hc _]. by constructor.
Qed.

Lemma upper_char_space c : c <> " "%char -> JsStr.upper_char c <> " "%char.
Proof. all_chars c; intros Hc; done. Qed.

Lemma upper_char_idem c :
  JsStr.upper_char (JsStr.upper_char c) = JsStr.upper_char c.
Proof. all_chars c. Qed.

Lemma toUpperCase_chars s :
  PyStr.chars (JsStr.toUpperCase s) = JsStr.upper_char <$> PyStr.chars s.
Proof. induction s as [|c s IH]; simpl; [done|]. by rewrite IH. Qed.

Lemma slice0_chars n s :
  PyStr.chars (JsStr.slice0 n s) = take n (PyStr.chars s).
Proof.
  revert s. induction n as [|n IH]; intros [|c s]; simpl; try done.
  by rewrite IH.
Qed.

(** The initials are at most two characters, none of them a space or a
    lower-case letter, whatever the spacing of the name. *)
Theorem getInitials_shape (name : string) :
  String.length (getInitials name) <= 2
  /\ Forall (fun c => c <> " "%char /\ JsStr.upper_char c = c)
       (PyStr.chars (getInitials name)).
Proof.
  unfold getInitials. split.
  - rewrite <- chars_length, slice0_chars, length_take. lia.
  - rewrite slice0_chars. apply Forall_take.
    rewrite toUpperCase_chars. apply Forall_fmap.
    eapply Forall_impl; [apply (join_first_no_sep " "), split_no_sep|].
    intros c Hc; simpl. split; [by apply upper_char_space|].
    apply upper_char_idem.
Qed.

Lemma split_word sep c w :
  Forall (fun c => c <> sep) (PyStr.chars (String c w)) ->
  forall rest, JsStr.split sep (String c w ++ String sep rest)
  = String c w :: JsStr.split sep rest.
Proof.
  revert c. induction w as [|d w IH]; intros c Hw rest; simpl.
  - apply Forall_cons in Hw as [Hc _].
    apply Ascii.eqb_neq in Hc. rewrite Hc.
    rewrite Ascii.eqb_refl. done.
  - apply Forall_cons in Hw as [Hc Hw].
    pose proof Hc as Hc'. apply Ascii.eqb_neq in Hc'. rewrite Hc'.
    specialize (IH d Hw rest). simpl in IH. rewrite IH. done.
Qed.

(** For a first name and a last name with one space between them the
    initials are the two first letters, in upper case. *)
Theorem getInitials_two_words (c1 c2 : ascii) (w1 w2 : string) :
  Forall (fun c => c <> " "%char) (PyStr.chars (String c1 w1)) ->
  Forall (fun c => c <> " "%char) (PyStr.chars (String c2 w2)) ->
  getInitials (String c1 w1 ++ String " " (String c2 w2))
  = String (JsStr.upper_char c1) (String (JsStr.upper_char c2) EmptyString).
Proof.
  intros H1 H2. unfold getInitials.
  rewrite (split_word " " c1 w1 H1).
  assert (exists ws, JsStr.split " " (String c2 w2) = String c2 ws :: [])
    as [ws ->].
  { clear H1. revert c2 H2. induction w2 as [|d w2 IH]; intros c2 H2; simpl.
    - apply Forall_cons in H2 as [Hc _]. apply Ascii.eqb_neq in Hc.
      rewrite Hc. by eexists.
    - apply Forall_cons in H2 as [Hc H2].
      pose proof Hc as Hc'. apply Ascii.eqb_neq in Hc'. rewrite Hc'.
      destruct (IH d H2) as [ws Hws]. simpl in Hws. rewrite Hws.
      by eexists. }
  done.
Qed.

End InitialsFacts.

Section PanelFacts.
Import Scorer Panel.

(** While the roster has not loaded, a task that has suggestions and is
    neither covered nor being scored shows an empty list of rows, not the
    "scoring candidates" indicator; that indicator is shown exactly when
    the task has no suggestion. *)
Theorem panel_rows_before_roster (store : Store)
    (tasks : option (list PanelTask)) (members : option (list TeamMember))
    (view : PanelView) (area : SuggestionArea) :
  SuggestionPanel store tasks members = Shown view ->
  suggestion_area view = Some area ->
  exists t,
    find_task tasks (selectedTaskId store) = Some t
    /\ covered_note view = false /\ running_banner view = false
    /\ (area = ScoringCandidates <-> suggestions (task t) = [])
    /\ (suggestions (task t) <> [] ->
        area = Rows (renderedRows (task t) members)
        /\ (members = None -> area = Rows [])).
Proof.
  unfold SuggestionPanel.
  destruct (negb (JsStr.truthy (selectedTaskId store))); [done|].
  destruct (find_task tasks (selectedTaskId store)) as [t|]; [|done].
  destruct (selectedTaskId store) as [selected|]; [|done].
  intros [= <-]; simpl.
  destruct (default (status t) (taskStatusOverrides store !! selected));
    simpl; try done;
    destruct (default false (pipelineRunning store !! selected));
    simpl; try done;
    intros [= <-]; exists t; (split; [done|]); (split; [done|]);
    (split; [done|]);
    assert (length (sortedSuggestions (task t) members)
            = length (suggestions (task t))) as Hlen
      by (unfold sortedSuggestions; by rewrite sort_perm, length_fmap);
    rewrite Hlen;
    destruct (suggestions (task t)) as [|s l] eqn:Hs; simpl;
    (split; [done|]); intros Hne; try done;
    (split; [done|]); intros ->;
    by rewrite renderedRows_None.
Qed.
End PanelFacts.

Lemma sublist_filter_bool {A} (p : A -> bool) (l : list A) :
  List.filter p l `sublist_of` l.
Proof.
  induction l as [|x l IH]; simpl; [done|].
  destruct (p x); by constructor.
Qed.

Section SettingsAppend.
Import Settings.

Lemma names_in (prev : list File) (f : File) :
  bool_decide (file_name f ∈ (list_to_set (file_name <$> prev) : gset string))
  = bool_decide (file_name f ∈ file_name <$> prev).
Proof. apply bool_decide_ext. apply elem_of_list_to_set. Qed.

(** [addFiles] keeps the files that are selected, in place, and appends
    from the incoming ones, in their order, exactly those whose name ends
    in [.ics] or [.zip] and is not the name of a selected file; [null]
    changes nothing. *)
Theorem addFiles_appends (incoming : list File) (st : UploadState) :
  addFiles None st = st
  /\ exists added,
       files (addFiles (Some incoming) st) = files st ++ added
       /\ added `sublist_of` incoming
       /\ forall f, f ∈ added <->
            f ∈ incoming /\ valid_name f = true
            /\ file_name f ∉ file_name <$> files st.
Proof.
  split; [done|]. eexists. split; [reflexivity|]. split.
  - etrans; apply sublist_filter_bool.
  - intros f. rewrite !list_elem_of_In, !filter_In, <- !list_elem_of_In.
    rewrite names_in, negb_true_iff, bool_decide_eq_false. tauto.
Qed.
End SettingsAppend.

(* ===================================================================== *)
(** * The settings and sign-in pages *)
(* ===================================================================== *)

Section SettingsFacts.
Import Settings.

Lemma filter_bool_nil {A} (p : A -> bool) (l : list A) :
  (forall x, x ∈ l -> p x = false) -> List.filter p l = [].
Proof.
  induction l as [|x l IH]; intros Hp; simpl; [done|].
  rewrite (Hp x) by left. apply IH. intros y Hy. apply Hp. by right.
Qed.

Lemma filter_bool_all {A} (p : A -> bool) (l : list A) :
  (forall x, x ∈ l -> p x = true) -> List.filter p l = l.
Proof.
  induction l as [|x l IH]; intros Hp; simpl; [done|].
  rewrite (Hp x) by left. f_equal. apply IH. intros y Hy. apply Hp. by right.
Qed.

(** Offering the same files a second time adds nothing. *)
Theorem addFiles_idempotent (incoming : list File) (st : UploadState) :
  addFiles (Some incoming) (addFiles (Some incoming) st)
  = addFiles (Some incoming) st.
Proof.
  unfold addFiles; cbn [files results].
  set (added := List.filter
                  (fun f => negb (bool_decide
                     (file_name f
                      ∈ (list_to_set (file_name <$> files st) : gset string))))
                  (List.filter valid_name incoming)).
  apply (f_equal (fun l => {| files := l; results := None |})).
  rewrite (filter_bool_nil
             (fun f => negb (bool_decide
                (file_name f
                 ∈ (list_to_set (file_name <$> files st ++ added)
                    : gset string)))));
    [by rewrite app_nil_r|].
  intros f Hf. pose proof Hf as Hf'.
  apply list_elem_of_In, filter_In in Hf' as [_ Hvalid].
  rewrite names_in, negb_false_iff, bool_decide_eq_true.
  rewrite fmap_app, elem_of_app.
  destruct (decide (file_name f ∈ file_name <$> files st)) as [|Hnew];
    [by left|right].
  apply list_elem_of_fmap_2. subst added.
  apply list_elem_of_In, filter_In. split; [by apply list_elem_of_In|].
  by rewrite names_in, negb_true_iff, bool_decide_eq_false.
Qed.

Lemma NoDup_fmap_filter_bool {A B} (f : A -> B) (p : A -> bool) l :
  NoDup (f <$> l) -> NoDup (f <$> List.filter p l).
Proof.
  induction l as [|x l IH]; [done|].
  rewrite fmap_cons. intros [Hx Hnd]%NoDup_cons.
  cbn [List.filter]. destruct (p x); [|by apply IH].
  rewrite fmap_cons. apply NoDup_cons. split; [|by apply IH].
  intros Hy'. apply list_elem_of_fmap in Hy' as (y & Hy & Hin). apply Hx.
  rewrite Hy. apply list_elem_of_fmap_2.
  by apply list_elem_of_In, filter_In in Hin as [Hin%list_elem_of_In _].
Qed.

(** The selected files keep distinct names when the incoming files have
    distinct names.  (Two incoming files of one new name are both taken:
    the names are compared with the selected files only.) *)
Theorem addFiles_distinct_names (incoming : list File) (st : UploadState) :
  NoDup (file_name <$> files st) ->
  NoDup (file_name <$> incoming) ->
  NoDup (file_name <$> files (addFiles (Some incoming) st)).
Proof.
  intros Hprev Hinc. simpl. rewrite fmap_app. apply NoDup_app.
  split; [done|]. split.
  - intros n Hn Hadded.
    apply list_elem_of_fmap in Hadded as (f & -> & Hf).
    apply list_elem_of_In, filter_In in Hf as [_ Hf].
    rewrite names_in, negb_true_iff, bool_decide_eq_false in Hf. done.
  - by do 2 apply NoDup_fmap_filter_bool.
Qed.

(** After [removeFile(name)] no selected file has that name, the other
    files are kept in their order, and removing a name that no file has
    leaves the selection as it is. *)
Theorem removeFile_removes (name : string) (st : UploadState) :
  (name ∉ file_name <$> files (removeFile name st))
  /\ (files (removeFile name st) `sublist_of` files st)
  /\ (forall f, f ∈ files st -> file_name f <> name ->
        f ∈ files (removeFile name st))
  /\ (name ∉ file_name <$> files st -> files (removeFile name st) = files st).
Proof.
  simpl. split; [|split; [|split]].
  - intros Hin. apply list_elem_of_fmap in Hin as (f & -> & Hf).
    apply list_elem_of_In, filter_In in Hf as [_ Hf].
    apply negb_true_iff, String.eqb_neq in Hf. done.
  - apply sublist_filter_bool.
  - intros f Hf Hne. apply list_elem_of_In, filter_In.
    split; [by apply list_elem_of_In|].
    by apply negb_true_iff, String.eqb_neq.
  - intros Hnot. apply filter_bool_all. intros f Hf.
    apply negb_true_iff, String.eqb_neq. intros <-.
    apply Hnot. by apply list_elem_of_fmap_2.
Qed.

(** Adding one file whose name is new and removing it by its name gives
    the selection back. *)
Theorem removeFile_addFiles (f : File) (st : UploadState) :
  file_name f ∉ file_name <$> files st ->
  files (removeFile (file_name f) (addFiles (Some [f]) st)) = files st.
Proof.
  intros Hnew. simpl.
  rewrite List.filter_app.
  rewrite (filter_bool_all _ (files st)).
  2:{ intros g Hg. apply negb_true_iff, String.eqb_neq. intros Heq.
      apply Hnew. rewrite <- Heq. by apply list_elem_of_fmap_2. }
  rewrite filter_bool_nil; [by rewrite app_nil_r|].
  intros g Hg. apply list_elem_of_In, filter_In in Hg as [Hg _].
  destruct (valid_name f); simpl in Hg; [|done].
  destruct Hg as [<-|[]]. apply negb_false_iff, String.eqb_refl.
Qed.
End SettingsFacts.

Section SignInFacts.
Import SignIn.

Lemma remove_non_digits_chars s :
  PyStr.chars (JsStr.remove_non_digits s)
  = List.filter JsStr.is_digit (PyStr.chars s).
Proof.
  induction s as [|c s IH]; simpl; [done|].
  destruct (JsStr.is_digit c); simpl; by rewrite IH.
Qed.

Lemma otp_input_chars value :
  PyStr.chars (otp_input value)
  = take 6 (List.filter JsStr.is_digit (PyStr.chars value)).
Proof. unfold otp_input. by rewrite slice0_chars, remove_non_digits_chars. Qed.

(** What the code field holds is made of decimal digits, six at most;
    typing into a field that holds such a code, digits or not, never
    yields anything else, and a value of up to six digits is kept as it
    is.  The verify button is enabled only for a code of exactly six
    digits. *)
Theorem otp_input_digits (value : string) :
  Forall (fun c => JsStr.is_digit c = true) (PyStr.chars (otp_input value))
  /\ String.length (otp_input value) <= 6
  /\ otp_input (otp_input value) = otp_input value
  /\ (forall loading,
        verify_disabled loading (otp_input value) = false ->
        loading = false /\ String.length (otp_input value) = 6).
Proof.
  assert (Forall (fun c => JsStr.is_digit c = true)
            (PyStr.chars (otp_input value))) as Hd.
  { rewrite otp_input_chars. apply Forall_take, Forall_forall.
    intros c Hc. by apply list_elem_of_In, filter_In in Hc as [_ Hc]. }
  assert (String.length (otp_input value) <= 6) as Hlen.
  { rewrite <- chars_length, otp_input_chars, length_take. lia. }
  split; [done|]. split; [done|]. split.
  - apply chars_inj. rewrite otp_input_chars.
    rewrite filter_bool_all
      by (intros c Hc; rewrite Forall_forall in Hd; by apply Hd).
    apply take_ge. by rewrite chars_length.
  - intros loading Hv. unfold verify_disabled in Hv.
    apply orb_false_iff in Hv as [-> Hv]. apply Nat.ltb_ge in Hv.
    split; [done|lia].
Qed.

Lemma truthy_nonempty (o : option string) (fallback : string) :
  JsStr.truthy o = true -> default fallback o <> EmptyString.
Proof. by destruct o as [[|c s]|]. Qed.

Lemma error_text_never_empty_aux (errors : option (list ClerkError))
    (fallback : string) :
  fallback <> EmptyString ->
  error_text errors fallback <> EmptyString.
Proof.
  intros Hf. unfold error_text.
  destruct (JsStr.truthy ((errors ≫= head) ≫= longMessage)) eqn:Hl;
    [by apply truthy_nonempty|].
  destruct (JsStr.truthy ((errors ≫= head) ≫= message)) eqn:Hs;
    [by apply truthy_nonempty|done].
Qed.

(** The text of the error banner is never empty: it is the long message
    of the first error if that is not empty, else its short message if
    that is not empty, else the fallback sentence. *)
Theorem error_text_never_empty (errors : option (list ClerkError))
    (fallback : string) :
  fallback <> EmptyString ->
  error_text errors fallback <> EmptyString.
Proof.
  intros Hf. unfold error_text.
  destruct (JsStr.truthy ((errors ≫= head) ≫= longMessage)) eqn:Hl;
    [by apply truthy_nonempty|].
  destruct (JsStr.truthy ((errors ≫= head) ≫= message)) eqn:Hs;
    [by apply truthy_nonempty|done].
Qed.

(** When [handleCredentials] is done the form is not loading; it has
    navigated only if sign-in was complete and nothing threw, and then no
    error is shown; whenever a call threw, or the status was an unknown
    one, an error text is shown; the code step is entered exactly on
    [needs_second_factor], and also when there is no e-mail code factor
    to prepare.  A submission while the form is loading or Clerk has not
    loaded is ignored. *)
Theorem handleCredentials_outcome (isLoaded : bool)
    (outcome : CreateOutcome) (st : FormState) :
  (isLoaded = false \/ loading st = true ->
   handleCredentials isLoaded outcome st = (st, false))
  /\ (isLoaded = true -> loading st = false ->
      let '(st', navigated) := handleCredentials isLoaded outcome st in
      loading st' = false
      /\ (navigated = true <-> outcome = Complete None)
      /\ (navigated = true -> error st' = EmptyString /\ step st' = step st)
      /\ (error st' = EmptyString <->
          outcome = Complete None
          \/ (exists f, outcome = NeedsSecondFactor f None)
          \/ (exists e, outcome = NeedsSecondFactor false e))
      /\ (step st' <> step st -> step st' = otp /\ error st' = EmptyString)).
Proof.
  split.
  - intros [->| Hl]; unfold handleCredentials; simpl; [done|].
    rewrite Hl. by rewrite orb_true_r.
  - intros -> Hl. unfold handleCredentials. rewrite Hl. simpl.
    assert (forall e, error_text e "Invalid credentials. Please try again."
                      <> EmptyString) as Hne
      by (intros e; by apply error_text_never_empty_aux).
    destruct outcome as [e|[e|]|[] [e|]|]; simpl;
      (split; [done|]); (split; [split; (done || by intros [= ])|]);
      (split; [done|]).
    all: split; [split|].
    all: try (intros He; exfalso; revert He; by apply Hne).
    all: try done.
    all: try (intros [H|[[f H]|[e' H]]]; done).
    all: try (intros _; by left).
    all: try (intros _; right; left; by eexists).
    all: try (intros _; right; right; by eexists).
    all: try (intros Hs; by destruct Hs).
Qed.
End SignInFacts.

(* ===================================================================== *)
(** * The identity matcher against section 4.1 *)
(* ===================================================================== *)

Section LongestBlock.
Context {A : Type} `{EqDecision A}.
Import SequenceMatcher SequenceMatcherInv MatchSpec SequenceMatcherScan.

Lemma suffix_len_common (a b : list A) : forall i j d,
  d < suffix_len a b i j ->
  d <= i /\ d <= j
  /\ exists x, a !! (i - d) = Some x /\ b !! (j - d) = Some x.
Proof.
  induction i as [|i IH]; intros j d Hd; simpl in Hd.
  - destruct (a !! 0) as [x|] eqn:Ha; [|lia].
    destruct (b !! j) as [y|] eqn:Hb; [|lia].
    destruct (decide (x = y)) as [->|]; [|lia].
    assert (d = 0) as -> by lia.
    split; [lia|]. split; [lia|]. exists y. by rewrite !Nat.sub_0_r.
  - destruct (a !! S i) as [x|] eqn:Ha; [|lia].
    destruct (b !! j) as [y|] eqn:Hb; [|lia].
    destruct (decide (x = y)) as [->|]; [|lia].
    destruct d as [|d].
    + split; [lia|]. split; [lia|]. exists y. by rewrite !Nat.sub_0_r.
    + destruct j as [|j]; [lia|].
      destruct (IH j d) as (Hi & Hj & x & Hx & Hy); [lia|].
      split; [lia|]. split; [lia|]. exists x. by simpl.
Qed.

Lemma suffix_len_longest (a b : list A) : forall k i j,
  (forall d, d < k ->
     d <= i /\ d <= j
     /\ exists x, a !! (i - d) = Some x /\ b !! (j - d) = Some x) ->
  k <= suffix_len a b i j.
Proof.
  induction k as [|k IH]; intros i j Hrun; [lia|].
  destruct (Hrun 0) as (_ & _ & x & Hx & Hy); [lia|].
  rewrite Nat.sub_0_r in Hx, Hy.
  destruct k as [|k].
  { destruct i; simpl; rewrite Hx, Hy, decide_True by done; lia. }
  destruct (Hrun 1) as (Hi & Hj & _); [lia|].
  destruct i as [|i]; [lia|]. destruct j as [|j]; [lia|].
  simpl. rewrite Hx, Hy, decide_True by done.
  apply le_n_S. apply IH. intros d Hd.
  destruct (Hrun (S d)) as (Hi' & Hj' & y & Hy1 & Hy2); [lia|].
  split; [lia|]. split; [lia|]. exists y. by simpl in Hy1, Hy2.
Qed.

(** A common block in terms of its last elements. *)
Lemma common_block_end (a b : list A) i j k :
  common_block a b i j (S k) ->
  forall d, d < S k ->
    d <= i + k /\ d <= j + k
    /\ exists x, a !! (i + k - d) = Some x /\ b !! (j + k - d) = Some x.
Proof.
  intros Hc d Hd. split; [lia|]. split; [lia|].
  destruct (Hc (k - d)) as (x & Hx & Hy); [lia|]. exists x.
  replace (i + k - d) with (i + (k - d)) by lia.
  by replace (j + k - d) with (j + (k - d)) by lia.
Qed.

Lemma suffix_len_le (a b : list A) i j :
  suffix_len a b i j <= S i /\ suffix_len a b i j <= S j.
Proof.
  destruct (suffix_len a b i j) as [|k] eqn:E; [lia|].
  destruct (suffix_len_common a b i j k) as (Hi & Hj & _); lia.
Qed.

Lemma suffix_len_block (a b : list A) i j :
  common_block a b (S i - suffix_len a b i j) (S j - suffix_len a b i j)
    (suffix_len a b i j).
Proof.
  intros d Hd. pose proof (suffix_len_le a b i j) as [Hli Hlj].
  destruct (suffix_len_common a b i j (suffix_len a b i j - 1 - d))
    as (Hi & Hj & x & Hx & Hy); [lia|].
  exists x.
  replace (S i - suffix_len a b i j + d)
    with (i - (suffix_len a b i j - 1 - d)) by lia.
  by replace (S j - suffix_len a b i j + d)
    with (j - (suffix_len a b i j - 1 - d)) by lia.
Qed.

Lemma newj2len_exact (a b : list A) i x row :
  a !! i = Some x -> exact_row a b i row ->
  exact_row a b (S i) (newj2len x b row 0).
Proof.
  intros Hx [Hlen Hrow]. split; [by apply newj2len_length|].
  intros j Hj. destruct (lookup_lt_is_Some_2 b j Hj) as [y Hy].
  rewrite (newj2len_lookup x b row 0 j y Hlen Hy).
  f_equal. destruct i as [|i]; simpl; rewrite Hx, Hy.
  - destruct (decide (x = y)); [|done]. f_equal.
    destruct j as [|j]; [done|]. by rewrite Hrow by lia.
  - destruct (decide (x = y)); [|done]. f_equal.
    destruct j as [|j]; [done|]. by rewrite Hrow by lia.
Qed.

Lemma common_block_bound (a b : list A) i j k :
  0 < k -> common_block a b i j k ->
  i + k - 1 < length a /\ j + k - 1 < length b.
Proof.
  intros Hk Hc. destruct (Hc (k - 1)) as (x & Hx & Hy); [lia|].
  apply lookup_lt_Some in Hx, Hy. lia.
Qed.

Lemma common_block_ends_at (a b : list A) i j i' j' k' :
  0 < k' -> common_block a b i' j' k' ->
  i' + k' - 1 = i -> j' + k' - 1 = j ->
  k' <= suffix_len a b i j.
Proof.
  intros Hk Hc Hi Hj. destruct k' as [|k]; [lia|].
  apply suffix_len_longest. intros d Hd.
  replace i with (i' + k) by lia. replace j with (j' + k) by lia.
  by apply common_block_end.
Qed.

(** One entry of the row: [if k > bestsize: ...]. *)
Lemma best_upto_step (a b : list A) i j best :
  best_upto a b i j best ->
  best_upto a b i (S j)
    (if size best <? suffix_len a b i j
     then (i + 1 - suffix_len a b i j, j + 1 - suffix_len a b i j,
           suffix_len a b i j)
     else best).
Proof.
  destruct best as [[bi bj] bk]. unfold best_upto, size, ends_before.
  cbn [fst snd]. intros (Hv & Hb & Hm).
  pose proof (suffix_len_le a b i j) as [Hli Hlj].
  set (K := suffix_len a b i j) in *.
  assert (forall i' j' k', 0 < k' -> common_block a b i' j' k' ->
            i' + k' - 1 = i -> j' + k' - 1 = j -> k' <= K) as Hend
    by (intros; by eapply common_block_ends_at).
  destruct (bk <? K) eqn:Hlt; cbn [fst snd].
  - apply Nat.ltb_lt in Hlt. split; [|split].
    + replace (i + 1 - K) with (S i - K) by lia.
      replace (j + 1 - K) with (S j - K) by lia.
      apply suffix_len_block.
    + right. lia.
    + intros i' j' k' Hk Hc He.
      destruct (decide (i' + k' - 1 = i /\ j' + k' - 1 = j)) as [[E1 E2]|Hne].
      * pose proof (Hend i' j' k' Hk Hc E1 E2). lia.
      * destruct (Hm i' j' k' Hk Hc) as [|[-> _]]; lia.
  - apply Nat.ltb_ge in Hlt. split; [done|]. split; [lia|].
    intros i' j' k' Hk Hc He.
    destruct (decide (i' + k' - 1 = i /\ j' + k' - 1 = j)) as [[E1 E2]|Hne].
    + pose proof (Hend i' j' k' Hk Hc E1 E2). lia.
    + apply Hm; [done|done|lia].
Qed.

Lemma update_best_upto (a b : list A) i row : forall j best,
  j + length row = length b ->
  (forall p, p < length row ->
     row !! p = Some (suffix_len a b i (j + p))) ->
  best_upto a b i j best ->
  best_upto a b i (length b) (update_best i j row best).
Proof.
  induction row as [|k row IH]; intros j best Hlen Hrow Hbest; simpl.
  - simpl in Hlen. by replace (length b) with j by lia.
  - simpl in Hlen.
    pose proof (Hrow 0 ltac:(simpl; lia)) as H0. simpl in H0.
    rewrite Nat.add_0_r in H0. injection H0 as ->.
    apply IH; [lia| |by apply best_upto_step].
    intros p Hp. specialize (Hrow (S p) ltac:(simpl; lia)). simpl in Hrow.
    by replace (S j + p) with (j + S p) by lia.
Qed.

Lemma best_upto_next_row (a b : list A) i best :
  best_upto a b i (length b) best -> best_upto a b (S i) 0 best.
Proof.
  unfold best_upto, ends_before. intros (Hv & Hb & Hm).
  split; [done|]. split; [lia|].
  intros i' j' k' Hk Hc He.
  pose proof (common_block_bound a b i' j' k' Hk Hc).
  apply Hm; [done|done|lia].
Qed.

Lemma find_longest_loop_upto (a b : list A) : forall a' i j2len best,
  drop i a = a' -> i <= length a ->
  exact_row a b i j2len -> best_upto a b i 0 best ->
  best_upto a b (length a) 0 (find_longest_loop i a' b j2len best).
Proof.
  induction a' as [|x a' IH]; intros i j2len best Hdrop Hi Hrow Hbest;
    simpl.
  - apply (f_equal length) in Hdrop. rewrite length_drop in Hdrop.
    simpl in Hdrop. by replace (length a) with i by lia.
  - assert (a !! i = Some x) as Hx.
    { rewrite <- (Nat.add_0_r i), <- lookup_drop, Hdrop. done. }
    pose proof (lookup_lt_Some _ _ _ Hx) as Hlt.
    pose proof (newj2len_exact a b i x j2len Hx Hrow) as [Hlen Hnew].
    apply IH.
    + apply (f_equal (drop 1)) in Hdrop. rewrite drop_drop in Hdrop.
      by replace (i + 1) with (S i) in Hdrop by lia.
    + lia.
    + by split.
    + apply best_upto_next_row. apply update_best_upto; [lia| |done].
      intros p Hp. apply Hnew. lia.
Qed.

(** [find_longest_match] returns the first of the longest common
    blocks, and a block of size 0 only where there is no common
    element. *)
Lemma find_longest_match_longest (a b : list A) i j k :
  find_longest_match a b = (i, j, k) -> longest_block a b i j k.
Proof.
  intros Hf.
  assert (best_upto a b (length a) 0 (i, j, k)) as (Hv & _ & Hm).
  { rewrite <- Hf. apply (find_longest_loop_upto a b a 0); [done|lia| |].
    - split; [by rewrite length_replicate|].
      intros j' Hj'. by apply lookup_replicate_2.
    - unfold best_upto, ends_before; cbn [fst snd].
      split; [intros d Hd; lia|]. split; [by left|].
      intros i' j' k' Hk Hc [He|[He ?]]; lia. }
  cbn [fst snd] in Hv, Hm.
  split; [done|]. intros i' j' k' Hk Hc.
  pose proof (common_block_bound a b i' j' k' Hk Hc).
  apply (Hm i' j' k' Hk Hc). left. lia.
Qed.

Lemma matching_nil_l (b : list A) : matching [] b 0.
Proof. apply matching_none. intros x Hx. by apply elem_of_nil in Hx. Qed.

Lemma matching_nil_r (a : list A) : matching a [] 0.
Proof. apply matching_none. intros x _ Hx. by apply elem_of_nil in Hx. Qed.

(** The sizes of the blocks of [get_matching_blocks] add up to the
    number of matching elements of the metric. *)
Lemma matching_blocks_matching fuel : forall alo blo (a b : list A),
  length a < fuel ->
  matching a b (sum_list_with size (matching_blocks fuel alo blo a b)).
Proof.
  induction fuel as [|fuel IH]; intros alo blo a b Hfuel; [lia|].
  simpl. destruct (find_longest_match a b) as [[i j] k] eqn:Hf.
  pose proof (find_longest_match_longest a b i j k Hf) as Hlong.
  destruct (k =? 0) eqn:Hk.
  - apply Nat.eqb_eq in Hk. subst k. simpl. apply matching_none.
    intros x Ha Hb.
    apply list_elem_of_lookup in Ha as [i' Hi'].
    apply list_elem_of_lookup in Hb as [j' Hj'].
    destruct Hlong as [_ Hmax].
    destruct (Hmax i' j' 1) as [|[? _]]; [lia| |lia..].
    intros d Hd. exists x. replace d with 0 by lia.
    by rewrite !Nat.add_0_r.
  - apply Nat.eqb_neq in Hk.
    pose proof (common_block_bound a b i j k ltac:(lia) (proj1 Hlong))
      as [Hia Hjb].
    rewrite sum_list_with_app. cbn [sum_list_with].
    change (size (alo + i, blo + j, k)) with k.
    rewrite Nat.add_assoc.
    apply (matching_block a b i j k); [lia|done| |].
    + destruct ((0 <? i) && (0 <? j)) eqn:Hl.
      * apply IH. rewrite length_take. lia.
      * simpl. apply andb_false_iff in Hl as [Hl|Hl];
          apply Nat.ltb_ge in Hl.
        -- replace i with 0 by lia. apply matching_nil_l.
        -- replace j with 0 by lia. apply matching_nil_r.
    + destruct ((i + k <? length a) && (j + k <? length b)) eqn:Hr.
      * apply IH. rewrite length_drop. lia.
      * simpl. apply andb_false_iff in Hr as [Hr|Hr];
          apply Nat.ltb_ge in Hr.
        -- rewrite (drop_ge a) by done. apply matching_nil_l.
        -- rewrite (drop_ge b) by done. apply matching_nil_r.
Qed.

(** [ratio()] is the similarity of the metric. *)
Lemma ratio_similarity (a b : list A) : similarity a b (ratio a b).
Proof.
  exists (sum_list_with size (get_matching_blocks a b)). split.
  - apply matching_blocks_matching. lia.
  - unfold ratio, _calculate_ratio.
    by destruct (length a + length b).
Qed.
End LongestBlock.

Section NormaliseSpec.
Import MatchSpec.

Lemma lstrip_chars_split (p : ascii -> bool) (s : string) :
  exists ats,
    PyStr.chars s = ats ++ PyStr.chars (PyStr.lstrip_chars p s)
    /\ Forall (fun c => p c = true) ats
    /\ forall c, head (PyStr.chars (PyStr.lstrip_chars p s)) = Some c ->
         p c = false.
Proof.
  induction s as [|c s (ats & Hs & Hats & Hhead)]; simpl.
  - exists []. by repeat split.
  - destruct (p c) eqn:Hc.
    + exists (c :: ats). split; [by rewrite Hs|]. split; [|done].
      by constructor.
    + exists []. split; [done|]. split; [done|].
      simpl. by intros ? [= <-].
Qed.

Lemma rstrip_chars_split (p : ascii -> bool) (s : string) :
  exists post,
    PyStr.chars s = PyStr.chars (PyStr.rstrip_chars p s) ++ post
    /\ Forall (fun c => p c = true) post
    /\ forall c, last (PyStr.chars (PyStr.rstrip_chars p s)) = Some c ->
         p c = false.
Proof.
  induction s as [|c s (post & Hs & Hpost & Hlast)]; simpl.
  - exists []. by repeat split.
  - destruct (PyStr.rstrip_chars p s) as [|d r] eqn:Hr.
    + simpl in Hs. destruct (p c) eqn:Hc.
      * exists (c :: post). split; [by rewrite Hs|]. split; [|done].
        by constructor.
      * exists post. split; [by rewrite Hs|]. split; [done|].
        simpl. by intros ? [= <-].
    + exists post. split; [by rewrite Hs|]. split; [done|].
      intros c'. simpl. simpl in Hlast. apply Hlast.
Qed.

Lemma replace_dot_to_space (s : string) :
  Forall2 dot_to_space (PyStr.chars s)
    (PyStr.chars (PyStr.replace "." " " s)).
Proof. induction s; simpl; by constructor. Qed.

Lemma lower_char_lowered (c : ascii) : lowered_char c (PyStr.lower_char c).
Proof. destruct c as [[] [] [] [] [] [] [] []]; vm_compute; reflexivity. Qed.

Lemma lower_lowered (s : string) :
  lowered (PyStr.chars s) (PyStr.chars (PyStr.lower s)).
Proof.
  induction s; simpl; constructor; [apply lower_char_lowered|done].
Qed.

Lemma isspace_whitespace (c : ascii) :
  PyStr.isspace c = bool_decide (whitespace c).
Proof. destruct c as [[] [] [] [] [] [] [] []]; vm_compute; reflexivity. Qed.

Lemma isspace_true (c : ascii) : PyStr.isspace c = true -> whitespace c.
Proof. rewrite isspace_whitespace. apply bool_decide_eq_true_1. Qed.

Lemma isspace_false (c : ascii) : PyStr.isspace c = false -> ~ whitespace c.
Proof. rewrite isspace_whitespace. apply bool_decide_eq_false_1. Qed.

(** The normalisation of [_best_member_match] is the one of
    section 4.1. *)
Lemma normalise_normalised (username : string) :
  normalised (PyStr.chars username)
    (PyStr.chars (Matcher.normalise username)).
Proof.
  unfold Matcher.normalise, PyStr.lstrip, PyStr.strip.
  destruct (lstrip_chars_split (fun c => Ascii.eqb c "@") username)
    as (ats & Hu & Hats & Hrest).
  set (rest := PyStr.lstrip_chars (fun c => Ascii.eqb c "@") username) in *.
  set (spaced := PyStr.replace "." " " rest).
  destruct (lstrip_chars_split PyStr.isspace spaced)
    as (before & Hsp & Hbefore & Hfirst).
  set (tail := PyStr.lstrip_chars PyStr.isspace spaced) in *.
  destruct (rstrip_chars_split PyStr.isspace tail)
    as (after & Htail & Hafter & Hlast).
  set (core := PyStr.rstrip_chars PyStr.isspace tail) in *.
  exists ats, (PyStr.chars rest), (PyStr.chars spaced), before,
    (PyStr.chars core), after.
  split; [done|]. split.
  { eapply Forall_impl; [exact Hats|]. intros c. apply Ascii.eqb_eq. }
  split.
  { intros Hh. specialize (Hrest _ Hh). by vm_compute in Hrest. }
  split; [apply replace_dot_to_space|].
  split; [by rewrite Hsp, Htail|].
  split; [eapply Forall_impl; [exact Hbefore|apply isspace_true]|].
  split; [eapply Forall_impl; [exact Hafter|apply isspace_true]|].
  split.
  { intros c Hc. apply isspace_false. apply Hfirst.
    rewrite Htail. destruct (PyStr.chars core); [done|]. done. }
  split; [intros c Hc; by apply isspace_false, Hlast|].
  apply lower_lowered.
Qed.
End NormaliseSpec.

Section MatcherSpecFacts.
Context {TeamMember : Type} (name : TeamMember -> string).
Import Matcher MatchSpec.

(** C3.  For a reference and a roster of ASCII text, with names of
    fewer than 200 characters (the length from which [SequenceMatcher]
    leaves popular characters out), [_best_member_match] does what
    section 4.1 asks.  The reference is normalised: its leading [@]
    characters go, every dot becomes a space, the white space at both
    ends goes, and capitals become small letters.  Every member has a
    ratio, the similarity [2 * M / T] of the longest-matching-blocks
    metric between the normalised reference and the name in lower case.
    The result is a member whose ratio is at least 0.75 and is the
    highest of the roster, and among the members of that ratio the first
    in roster order; it is nothing exactly when every ratio is below
    0.75. *)
Theorem best_member_match_spec (username : string)
    (members : list TeamMember) :
  PyStr.isascii username = true ->
  (forall m, m ∈ members ->
     PyStr.isascii (name m) = true /\ String.length (name m) < 200) ->
  exists (norm : list ascii) (r : TeamMember -> Q),
    normalised (PyStr.chars username) norm
    /\ (forall m, exists lname,
          lowered (PyStr.chars (name m)) lname
          /\ similarity norm lname (r m))
    /\ match _best_member_match name username members with
       | Some m =>
           exists i,
             members !! i = Some m
             /\ (75 # 100 <= r m)%Q
             /\ (forall j m', members !! j = Some m' -> (r m' <= r m)%Q)
             /\ (forall j m', j < i -> members !! j = Some m' ->
                   (r m' < r m)%Q)
       | None =>
           forall j m', members !! j = Some m' -> (r m' < 75 # 100)%Q
       end.
Proof.
  intros _ _. set (norm := normalise username).
  exists (PyStr.chars norm), (member_ratio name norm).
  split; [apply normalise_normalised|]. split.
  { intros m. exists (PyStr.chars (PyStr.lower (name m))).
    split; [apply lower_lowered|apply ratio_similarity]. }
  unfold _best_member_match, best_member_at. fold norm.
  pose proof (best_loop_all name norm members) as [Hle Hbest].
  destruct (best_loop name norm 0 members 0%Q None) as [br bm].
  cbn [fst snd] in *.
  destruct (Qle_bool threshold br) eqn:Hthr.
  - apply Qle_bool_iff in Hthr.
    destruct bm as [[k mk]|]; simpl.
    + destruct Hbest as (Hk & Heq & Hfirst). exists k.
      split; [done|]. split; [by rewrite <- Heq|]. split.
      * intros j m' Hj. rewrite <- Heq. by eapply Hle.
      * intros j m' Hlt Hj. rewrite <- Heq. by eapply Hfirst.
    + intros j m' Hj. exfalso. rewrite Hbest in Hthr.
      by apply Qle_bool_iff in Hthr.
  - simpl. intros j m' Hj.
    apply Qle_lt_trans with br; [by eapply Hle|].
    apply Qltb_true. unfold Qltb. unfold threshold in Hthr. by rewrite Hthr.
Qed.
End MatcherSpecFacts.

(* ===================================================================== *)
(** * The properties above at the sample data *)
(* ===================================================================== *)

Lemma short_reference_no_match_witness :
  Matcher._best_member_match Reconcile.name "maya" [Sample.maya_patel]
  = None.
Proof.
  apply (short_reference_no_match Reconcile.name "maya" [Sample.maya_patel]).
  intros m Hm. apply list_elem_of_singleton in Hm. subst m.
  vm_compute. lia.
Defined.

Lemma exact_name_is_matched_witness :
  Matcher._best_member_match Reconcile.name "@Maya.Patel"
    [Sample.maya_patel]
  = Some Sample.maya_patel.
Proof.
  apply (exact_name_is_matched Reconcile.name "@Maya.Patel"
           [Sample.maya_patel] 0 Sample.maya_patel).
  - reflexivity.
  - vm_compute. reflexivity.
  - intros j m' Hj. lia.
Defined.

Lemma match_reads_names_only_witness :
  fst <$> Matcher.best_member_at Reconcile.name "@maya.patel"
            [Sample.maya_patel]
  = fst <$> Matcher.best_member_at Reconcile.name "@maya.patel"
              [Sample.maya_overridden].
Proof.
  apply (match_reads_names_only Reconcile.name "@maya.patel"
           [Sample.maya_patel] [Sample.maya_overridden]).
  reflexivity.
Defined.

Lemma rendered_row_member_witness :
  exists r,
    r ∈ Scorer.renderedRows Sample.task_001 Sample.roster
    /\ Scorer.id (Scorer.row_member r)
       = Scorer.memberId (Scorer.sug (Scorer.row_suggestion r)).
Proof.
  eexists. split; [left|].
  eapply (rendered_row_member Sample.task_001 Sample.roster). left.
Defined.

Lemma all_known_rows_witness :
  Scorer.rank <$> Scorer.renderedRows Sample.task_001 Sample.roster = [0].
Proof.
  apply (all_known_rows Sample.task_001 Sample.roster).
  intros s Hs. apply list_elem_of_singleton in Hs. subst s.
  eexists. vm_compute. reflexivity.
Defined.

Lemma rendered_rows_descending_witness :
  exists r1 r2,
    Scorer.renderedRows Sample.task_002 Sample.roster !! 0 = Some r1
    /\ Scorer.renderedRows Sample.task_002 Sample.roster !! 1 = Some r2
    /\ (Scorer._combined (Scorer.row_suggestion r1)
        <? Scorer._combined (Scorer.row_suggestion r2))%float = false.
Proof.
  eexists _, _. split; [reflexivity|]. split; [reflexivity|].
  apply (rendered_rows_descending Sample.task_002 Sample.roster 0 1).
  - vm_compute. reflexivity.
  - lia.
  - reflexivity.
  - reflexivity.
Defined.

Lemma getInitials_two_words_witness :
  Panel.getInitials "jordan lee" = "JL".
Proof.
  apply (getInitials_two_words "j" "l" "ordan" "ee").
  - repeat constructor; discriminate.
  - repeat constructor; discriminate.
Defined.

Lemma panel_rows_before_roster_witness :
  exists view area,
    Panel.SuggestionPanel SampleExtra.store_001
      (Some [SampleExtra.panel_task_001]) None = Panel.Shown view
    /\ Panel.suggestion_area view = Some area
    /\ area = Panel.Rows [].
Proof.
  eexists _, _. split; [vm_compute; reflexivity|].
  split; [reflexivity|].
  destruct (panel_rows_before_roster SampleExtra.store_001
              (Some [SampleExtra.panel_task_001]) None _ _
              eq_refl eq_refl)
    as (t & Ht & _ & _ & _ & Hrows).
  vm_compute in Ht. injection Ht as <-.
  apply Hrows; [discriminate | reflexivity].
Defined.

Lemma addFiles_distinct_names_witness :
  NoDup (Settings.file_name
           <$> Settings.files
                 (Settings.addFiles
                    (Some [SampleExtra.maya_ics; SampleExtra.team_zip;
                           SampleExtra.notes_txt])
                    SampleExtra.one_selected)).
Proof.
  apply (addFiles_distinct_names
           [SampleExtra.maya_ics; SampleExtra.team_zip;
            SampleExtra.notes_txt] SampleExtra.one_selected).
  - refine (bool_decide_unpack _ _). vm_compute. exact I.
  - refine (bool_decide_unpack _ _). vm_compute. exact I.
Defined.

Lemma removeFile_addFiles_witness :
  Settings.files
    (Settings.removeFile "team.zip"
       (Settings.addFiles (Some [SampleExtra.team_zip])
          SampleExtra.one_selected))
  = [SampleExtra.maya_ics].
Proof.
  apply (removeFile_addFiles SampleExtra.team_zip SampleExtra.one_selected).
  refine (bool_decide_unpack _ _). vm_compute. exact I.
Defined.

Lemma error_text_never_empty_witness :
  SignIn.error_text (Some [SampleExtra.wrong_password])
    "Invalid credentials. Please try again."
  <> "".
Proof.
  apply (error_text_never_empty (Some [SampleExtra.wrong_password])
           "Invalid credentials. Please try again.").
  discriminate.
Defined.

Lemma best_member_match_spec_witness :
  exists (norm : list ascii) (r : Reconcile.Member -> Q),
    MatchSpec.normalised (PyStr.chars "@Maya.Patel") norm
    /\ (forall m, exists lname,
          MatchSpec.lowered (PyStr.chars (Reconcile.name m)) lname
          /\ MatchSpec.similarity norm lname (r m))
    /\ match Matcher._best_member_match Reconcile.name "@Maya.Patel"
               [Sample.maya_patel] with
       | Some m =>
           exists i,
             [Sample.maya_patel] !! i = Some m
             /\ (75 # 100 <= r m)%Q
             /\ (forall j m', [Sample.maya_patel] !! j = Some m' ->
                   (r m' <= r m)%Q)
             /\ (forall j m', j < i -> [Sample.maya_patel] !! j = Some m' ->
                   (r m' < r m)%Q)
       | None =>
           forall j m', [Sample.maya_patel] !! j = Some m' ->
             (r m' < 75 # 100)%Q
       end.
Proof.
  apply (best_member_match_spec Reconcile.name "@Maya.Patel"
           [Sample.maya_patel]); [reflexivity|].
  intros m Hm. apply list_elem_of_singleton in Hm. subst m.
  split; [reflexivity|]. vm_compute. lia.
Defined.

Lemma match_ignores_handle_form_witness :
  Matcher._best_member_match Reconcile.name (PyStr.lower "@Maya.Patel")
    [Sample.maya_patel]
  = Matcher._best_member_match Reconcile.name "@Maya.Patel"
      [Sample.maya_patel].
Proof.
  apply (match_ignores_handle_form Reconcile.name "@Maya.Patel"
           [Sample.maya_patel]).
  reflexivity.
Defined.
